(** * Hybrid free-space manager: bitmap + ordered free-extent list

    Shallow embedding of [HybridSpaceManager] from [Masskill_OS_final.py]
    and the properties of its allocate / deallocate / update_groups
    operations, followed by the window built around it: the text of the
    free list, the drawing of the disk, the info panel and the handlers of
    the three buttons.

    Python integers are unbounded, hence [Z].  The bitmap is a Python list
    of integers (0 = free, 1 = allocated); indexing follows Python: an
    index in [-len, 0) counts from the end, anything outside [-len, len)
    raises [IndexError], modelled by [None].  The free list is a singly
    linked chain of [FreeExtent] nodes owned by the manager alone, so it is
    modelled by the list of its nodes in chain order. *)

From Stdlib Require Import ZArith Lia Sorted QArith.
From stdpp Require Import base option list strings pretty.

Local Open Scope Z_scope.

(** ** Data model *)

(** [FreeExtent] dataclass; the [next] link is the tail of the list. *)
Module FreeExtent.
Record t : Type := mk { start : Z; size : Z }.
End FreeExtent.

Record HybridSpaceManager : Type := mkManager {
  disk_size : Z;
  bitmap : list Z;
  free_list : list FreeExtent.t;
  groups : list (Z * Z)
}.

(** ** Python list primitives *)

Definition py_index {A} (l : list A) (i : Z) : option nat :=
  let len := Z.of_nat (length l) in
  if decide (0 <= i < len) then Some (Z.to_nat i)
  else if decide (- len <= i < 0) then Some (Z.to_nat (i + len))
  else None.

(** [l[i]] *)
Definition getitem {A} (l : list A) (i : Z) : option A :=
  k ← py_index l i; l !! k.

(** [l[i] = x] *)
Definition setitem {A} (l : list A) (i : Z) (x : A) : option (list A) :=
  k ← py_index l i; Some (<[k:=x]> l).

(** Number of iterations of [range(lo, hi)]. *)
Definition range_len (lo hi : Z) : nat := Z.to_nat (hi - lo).

(** ** update_groups *)

(** Loop variables of [update_groups]. *)
Record scan_state : Type := mkScan {
  sc_groups : list (Z * Z);
  in_group : bool;
  group_start : Z
}.

(** Body of [for i in range(self.disk_size)]. *)
Definition scan_step (bm : list Z) (i : Z) (st : scan_state) : option scan_state :=
  b ← getitem bm i;
  if decide (b = 0) then
    if in_group st then Some st
    else Some (mkScan (sc_groups st) true i)
  else
    if in_group st
    then Some (mkScan (sc_groups st ++ [(group_start st, i - group_start st)])
                      false (group_start st))
    else Some st.

Fixpoint scan (bm : list Z) (i : Z) (cnt : nat) (st : scan_state) : option scan_state :=
  match cnt with
  | O => Some st
  | S c => st' ← scan_step bm i st; scan bm (i + 1) c st'
  end.

(** The value assigned to [self.groups] for a given bitmap and size. *)
Definition derive_groups (bm : list Z) (dsz : Z) : option (list (Z * Z)) :=
  st ← scan bm 0 (range_len 0 dsz) (mkScan [] false 0);
  Some (if in_group st
        then sc_groups st ++ [(group_start st, dsz - group_start st)]
        else sc_groups st).

Definition update_groups (s : HybridSpaceManager) : option HybridSpaceManager :=
  g ← derive_groups (bitmap s) (disk_size s);
  Some (mkManager (disk_size s) (bitmap s) (free_list s) g).

(** ** Construction *)

Definition init (dsz : Z) : option HybridSpaceManager :=
  update_groups
    (mkManager dsz (replicate (Z.to_nat dsz) 0) [FreeExtent.mk 0 dsz] []).

(** ** allocate *)

(** [for i in range(start, start + n): if self.bitmap[i] == 1: return False, -1];
    [Some false] is the early return. *)
Fixpoint check_free (bm : list Z) (i : Z) (cnt : nat) : option bool :=
  match cnt with
  | O => Some true
  | S c =>
      b ← getitem bm i;
      if decide (b = 1) then Some false else check_free bm (i + 1) c
  end.

(** [for i in range(...): self.bitmap[i] = v] *)
Fixpoint mark (bm : list Z) (v : Z) (i : Z) (cnt : nat) : option (list Z) :=
  match cnt with
  | O => Some bm
  | S c => bm' ← setitem bm i v; mark bm' v (i + 1) c
  end.

(** The [while current:] walk of [allocate]; the argument is the chain
    from [current] on, the result is the chain that replaces it. *)
Fixpoint remove_range (fl : list FreeExtent.t) (start n : Z) : list FreeExtent.t :=
  match fl with
  | [] => []
  | current :: next =>
      let cs := FreeExtent.start current in
      let cz := FreeExtent.size current in
      if decide (cs <= start ∧ cs + cz >= start + n) then
        if decide (cs = start ∧ cz = n) then next
        else if decide (cs = start) then FreeExtent.mk (cs + n) (cz - n) :: next
        else if decide (cs + cz = start + n) then FreeExtent.mk cs (cz - n) :: next
        else FreeExtent.mk cs (start - cs)
               :: FreeExtent.mk (start + n) (cs + cz - start - n) :: next
      else current :: remove_range next start n
  end.

Definition allocate (s : HybridSpaceManager) (start n : Z)
  : option (HybridSpaceManager * (bool * Z)) :=
  if decide (start < 0 ∨ start + n > disk_size s) then Some (s, (false, -1))
  else
    free ← check_free (bitmap s) start (range_len start (start + n));
    if free : bool then
      bm ← mark (bitmap s) 1 start (range_len start (start + n));
      s' ← update_groups
             (mkManager (disk_size s) bm
                        (remove_range (free_list s) start n) (groups s));
      Some (s', (true, start))
    else Some (s, (false, -1)).

(** ** deallocate *)

(** "Merge with next if adjacent": the new extent together with its
    [next] chain. *)
Definition merge_next (current : list FreeExtent.t) (start n : Z)
  : FreeExtent.t * list FreeExtent.t :=
  match current with
  | c :: next =>
      if decide (FreeExtent.start c = start + n)
      then (FreeExtent.mk start (n + FreeExtent.size c), next)
      else (FreeExtent.mk start n, current)
  | [] => (FreeExtent.mk start n, [])
  end.

(** "Merge with prev if adjacent": the chain from [prev] on (from the new
    head when there is no [prev]). *)
Definition merge_prev (prev : option FreeExtent.t)
    (new_extent : FreeExtent.t * list FreeExtent.t) (start : Z)
  : list FreeExtent.t :=
  match prev with
  | Some p =>
      if decide (FreeExtent.start p + FreeExtent.size p = start)
      then FreeExtent.mk (FreeExtent.start p)
             (FreeExtent.size p + FreeExtent.size (fst new_extent))
             :: snd new_extent
      else p :: fst new_extent :: snd new_extent
  | None => fst new_extent :: snd new_extent
  end.

(** [while current and current.start < start] followed by the two merges;
    the result is the chain from [prev] on. *)
Fixpoint insert_walk (prev : option FreeExtent.t) (current : list FreeExtent.t)
    (start n : Z) : list FreeExtent.t :=
  match current with
  | c :: next =>
      if decide (FreeExtent.start c < start)
      then match prev with
           | Some p => p :: insert_walk (Some c) next start n
           | None => insert_walk (Some c) next start n
           end
      else merge_prev prev (merge_next current start n) start
  | [] => merge_prev prev (merge_next [] start n) start
  end.

Definition insert_extent (fl : list FreeExtent.t) (start n : Z) : list FreeExtent.t :=
  match fl with
  | [] => [FreeExtent.mk start n]
  | _ => insert_walk None fl start n
  end.

Definition deallocate (s : HybridSpaceManager) (start n : Z)
  : option (HybridSpaceManager * bool) :=
  if decide (start + n > disk_size s ∨ start < 0) then Some (s, false)
  else
    bm ← mark (bitmap s) 0 start (range_len start (start + n));
    s' ← update_groups
           (mkManager (disk_size s) bm
                      (insert_extent (free_list s) start n) (groups s));
    Some (s', true).

(** ** Sequences of calls *)

Inductive call : Type :=
| Allocate (start n : Z)
| Deallocate (start n : Z).

(** One call: the state afterwards and whether it reported success. *)
Definition do_call (s : HybridSpaceManager) (c : call)
  : option (HybridSpaceManager * bool) :=
  match c with
  | Allocate start n => r ← allocate s start n; Some (fst r, fst (snd r))
  | Deallocate start n => deallocate s start n
  end.

(** The state and the success flag observed after each call of a
    sequence. *)
Fixpoint run (s : HybridSpaceManager) (cs : list call)
  : option (list (HybridSpaceManager * bool)) :=
  match cs with
  | [] => Some []
  | c :: cs' =>
      r ← do_call s c;
      tr ← run (fst r) cs';
      Some (r :: tr)
  end.

(** The chain as [(start, length)] index ranges. *)
Definition ranges (fl : list FreeExtent.t) : list (Z * Z) :=
  map (λ e, (FreeExtent.start e, FreeExtent.size e)) fl.

Definition extents (s : HybridSpaceManager) : list (Z * Z) :=
  ranges (free_list s).

(** ** Index ranges, coverage and the invariants *)

(** Block [i] is covered by one of the [(start, length)] ranges. *)
Definition covered (l : list (Z * Z)) (i : Z) : Prop :=
  Exists (λ g, g.1 <= i < g.1 + g.2) l.

(** Ranges of positive length inside [lo, hi], ascending, with at least
    one block between two successive ranges. *)
Fixpoint wfl (lo hi : Z) (l : list (Z * Z)) : Prop :=
  match l with
  | [] => True
  | g :: r => lo <= g.1 ∧ 0 < g.2 ∧ g.1 + g.2 <= hi ∧ wfl (g.1 + g.2 + 1) hi r
  end.

Definition is_free (bm : list Z) (i : Z) : Prop :=
  0 <= i ∧ bm !! Z.to_nat i = Some 0.

Definition sum_len (l : list (Z * Z)) : Z := foldr (λ g acc, g.2 + acc) 0 l.

Definition count_free (bm : list Z) : Z :=
  Z.of_nat (length (filter (λ b, b = 0) bm)).

(** [self.bitmap.count(1)] *)
Definition count_allocated (bm : list Z) : Z :=
  Z.of_nat (length (filter (λ b, b = 1) bm)).

(** ** Loop invariant of the scan of update_groups *)

Definition scan_inv (bm : list Z) (k : Z) (st : scan_state) : Prop :=
  wfl 0 (if in_group st then group_start st - 1 else k - 1) (sc_groups st) ∧
  (∀ i, 0 <= i < k →
        (is_free bm i ↔
         covered (sc_groups st) i ∨ (in_group st = true ∧ group_start st <= i))) ∧
  (in_group st = true → 0 <= group_start st < k) ∧
  sum_len (sc_groups st) + (if in_group st then k - group_start st else 0)
    = count_free (take (Z.to_nat k) bm).

(** The order of the chain: strictly increasing starts, and every extent
    ends strictly before the start of each later one. *)
Definition apart (a b : Z * Z) : Prop := a.1 < b.1 ∧ a.1 + a.2 < b.1.

(** ** Maximal runs of free blocks *)

(** [g = (start, length)] is a maximal contiguous run of free blocks of
    the device [0, dsz): non-empty, all free, and not extensible on either
    side. *)
Definition maximal_free_run (bm : list Z) (dsz : Z) (g : Z * Z) : Prop :=
  0 <= g.1 ∧ 0 < g.2 ∧ g.1 + g.2 <= dsz ∧
  (∀ i, g.1 <= i < g.1 + g.2 → is_free bm i) ∧
  (g.1 = 0 ∨ ¬ is_free bm (g.1 - 1)) ∧
  (g.1 + g.2 = dsz ∨ ¬ is_free bm (g.1 + g.2)).

(** ** Invariants of the manager *)

(** The bitmap has one 0/1 flag per block. *)
Definition wf (s : HybridSpaceManager) : Prop :=
  length (bitmap s) = Z.to_nat (disk_size s) ∧
  Forall (λ b, b = 0 ∨ b = 1) (bitmap s).

(** Invariant 1: a block is flagged allocated iff no extent covers it. *)
Definition inv1 (s : HybridSpaceManager) : Prop :=
  ∀ i, 0 <= i < disk_size s →
       (bitmap s !! Z.to_nat i = Some 1 ↔ ¬ covered (extents s) i).

(** Invariant 2: extents ascending, disjoint and never adjacent. *)
Definition inv2 (s : HybridSpaceManager) : Prop :=
  StronglySorted apart (extents s).

(** Invariant 3: free extent lengths + allocated blocks = disk_size. *)
Definition inv3 (s : HybridSpaceManager) : Prop :=
  sum_len (extents s) + count_allocated (bitmap s) = disk_size s.

(** Invariant 4: the groups are those derived from the bitmap, and they
    are the free-list extents. *)
Definition inv4 (s : HybridSpaceManager) : Prop :=
  derive_groups (bitmap s) (disk_size s) = Some (groups s) ∧
  groups s = extents s.

Definition Inv (s : HybridSpaceManager) : Prop :=
  wf s ∧ inv1 s ∧ inv2 s ∧ inv3 s ∧ inv4 s.

(** The chain represents the free blocks of the bitmap. *)
Definition Rep (dsz : Z) (bm : list Z) (fl : list FreeExtent.t) : Prop :=
  length bm = Z.to_nat dsz ∧ Forall (λ b, b = 0 ∨ b = 1) bm ∧ 0 <= dsz ∧
  wfl 0 dsz (ranges fl) ∧
  ∀ i, 0 <= i < dsz → (is_free bm i ↔ covered (ranges fl) i).

(** Every flag of [bitmap[start : start + n]] equals [v]. *)
Definition blocks_all (v : Z) (bm : list Z) (start n : Z) : bool :=
  bool_decide (Forall (λ b, b = v) (take (Z.to_nat n) (drop (Z.to_nat start) bm))).

(** The preconditions listed for the two operations: a positive count and
    a range inside the device, and for allocate a range that is free. *)
Definition meets_preconditions (s : HybridSpaceManager) (c : call) : bool :=
  match c with
  | Allocate start n =>
      bool_decide (1 <= n ∧ 0 <= start ∧ start + n <= disk_size s)
      && blocks_all 0 (bitmap s) start n
  | Deallocate start n =>
      bool_decide (1 <= n ∧ 0 <= start ∧ start + n <= disk_size s)
  end.

(** The preconditions, with deallocate restricted to ranges that are
    currently allocated. *)
Definition valid_call (s : HybridSpaceManager) (c : call) : bool :=
  match c with
  | Allocate start n => meets_preconditions s c
  | Deallocate start n =>
      meets_preconditions s c && blocks_all 1 (bitmap s) start n
  end.

(** Every call of the sequence satisfies [ok] in the state it is made in. *)
Fixpoint all_calls (ok : HybridSpaceManager → call → bool)
    (s : HybridSpaceManager) (cs : list call) : bool :=
  match cs with
  | [] => true
  | c :: cs' =>
      ok s c &&
      match do_call s c with
      | Some r => all_calls ok (fst r) cs'
      | None => true
      end
  end.

(** ** Sample states *)

(** The manager right after [HybridSpaceManager(50)]. *)
Definition fresh50 : HybridSpaceManager :=
  mkManager 50 (replicate 50 0) [FreeExtent.mk 0 50] [(0, 50)].

(** A 15-block device with [5:10) allocated: free extents [0:5), [10:15). *)
Definition gap15 : HybridSpaceManager :=
  mkManager 15 (replicate 5 0 ++ replicate 5 1 ++ replicate 5 0)
            [FreeExtent.mk 0 5; FreeExtent.mk 10 5] [(0, 5); (10, 5)].

(** A 50-block device with [10:15) allocated. *)
Definition hole50 : HybridSpaceManager :=
  mkManager 50 (replicate 10 0 ++ replicate 5 1 ++ replicate 35 0)
            [FreeExtent.mk 0 10; FreeExtent.mk 15 35] [(0, 10); (15, 35)].

(** The same device with [20:25) allocated as well. *)
Definition two_holes50 : HybridSpaceManager :=
  mkManager 50
    (replicate 10 0 ++ replicate 5 1 ++ replicate 5 0 ++ replicate 5 1
       ++ replicate 25 0)
    [FreeExtent.mk 0 10; FreeExtent.mk 15 5; FreeExtent.mk 25 25]
    [(0, 10); (15, 5); (25, 25)].

(** The 50-block device with [10:15) allocated after the accepted
    zero-count call deallocate(12, 0): an empty extent sits in the chain. *)
Definition stray50 : HybridSpaceManager :=
  mkManager 50 (replicate 10 0 ++ replicate 5 1 ++ replicate 35 0)
            [FreeExtent.mk 0 10; FreeExtent.mk 12 0; FreeExtent.mk 15 35]
            [(0, 10); (15, 35)].

(** ** States the manager can be in *)

(** A manager is constructed and then receives calls with arbitrary
    integer arguments. *)
Inductive reachable : HybridSpaceManager → Prop :=
| reach_init dsz s : init dsz = Some s → reachable s
| reach_call s c r : reachable s → do_call s c = Some r → reachable (fst r).

(** ** The window: constants and text *)

Definition DISK_SIZE : Z := 50.

Definition GRID_COLS : Z := 10.

(** Size of the canvas, [tk.Canvas(root, width=550, height=300, ...)]. *)
Definition canvas_width : Z := 550.

Definition canvas_height : Z := 300.

(** Locals of [draw_disk]. *)
Definition block_width : Z := 50.

Definition block_height : Z := 50.

Definition padding : Z := 2.

(** [str(z)] and [f"{z}"] of an int: decimal digits, with a leading minus
    sign for a negative number.  The conversion is total; the limit that
    recent CPython versions put on the number of digits (4300 by default,
    adjustable) is not modelled. *)
Definition py_str (z : Z) : string := pretty z.

(** The newline character. *)
Definition nl : string := String (Ascii.ascii_of_nat 10) "".

(** ** get_free_list_info *)

(** [f"[{current.start}:{current.start+current.size}]"] *)
Definition extent_label (e : FreeExtent.t) : string :=
  "[" +:+ py_str (FreeExtent.start e) +:+ ":"
      +:+ py_str (FreeExtent.start e + FreeExtent.size e) +:+ "]".

(** The labels of the chain joined by [" -> "], or ["Empty"]. *)
Definition get_free_list_info (s : HybridSpaceManager) : string :=
  let labels := map extent_label (free_list s) in
  match labels with
  | [] => "Empty"
  | _ => String.concat " -> " labels
  end.

(** ** draw_disk *)

(** What [draw_disk] creates on the canvas.  The options that are the same
    for every item of a kind are left out: rectangles have a gray outline,
    texts are black 7pt Arial, lines are blue smooth arrows of width 3.
    Line coordinates are rationals because the middle point of a curved
    arrow is computed by a true division by 2. *)
Inductive canvas_item : Type :=
| Rectangle (x1 y1 x2 y2 : Z) (fill : string)
| CanvasText (x y : Z) (text : string)
| Line (coords : list Q).

(** Corners [(x1, y1, x2, y2)] of the cell of block [i]. *)
Definition block_cell (i : Z) : Z * Z * Z * Z :=
  let row := i / GRID_COLS in
  let col := i mod GRID_COLS in
  let x1 := 10 + col * (block_width + padding) in
  let y1 := 10 + row * (block_height + padding) in
  (x1, y1, x1 + block_width, y1 + block_height).

(** ["lightgreen" if manager.bitmap[i] == 0 else "salmon"] *)
Definition block_color (b : Z) : string :=
  if decide (b = 0) then "lightgreen" else "salmon".

(** Body of [for i in range(DISK_SIZE)]: the rectangle of block [i] and
    its number at the centre. *)
Definition draw_block (bm : list Z) (i : Z) : option (list canvas_item) :=
  let '(x1, y1, x2, y2) := block_cell i in
  b ← getitem bm i;
  Some [Rectangle x1 y1 x2 y2 (block_color b);
        CanvasText (x1 + block_width / 2) (y1 + block_height / 2) (py_str i)].

Fixpoint draw_blocks (bm : list Z) (i : Z) (cnt : nat) : option (list canvas_item) :=
  match cnt with
  | O => Some []
  | S c =>
      items ← draw_block bm i;
      rest ← draw_blocks bm (i + 1) c;
      Some (items ++ rest)
  end.

(** Where an arrow leaves [prev_extent]: the middle of the right edge of
    its last block, [(prev_x, prev_y)]. *)
Definition arrow_from (prev_extent : FreeExtent.t) : Z * Z :=
  let prev_last_block :=
    FreeExtent.start prev_extent + FreeExtent.size prev_extent - 1 in
  let prev_row := prev_last_block / GRID_COLS in
  let prev_col := prev_last_block mod GRID_COLS in
  (10 + prev_col * (block_width + padding) + block_width,
   10 + prev_row * (block_height + padding) + block_height / 2).

(** Where it arrives: the middle of the left edge of the first block of
    [current], [(curr_x, curr_y)]. *)
Definition arrow_to (current : FreeExtent.t) : Z * Z :=
  let curr_first_block := FreeExtent.start current in
  let curr_row := curr_first_block / GRID_COLS in
  let curr_col := curr_first_block mod GRID_COLS in
  (10 + curr_col * (block_width + padding),
   10 + curr_row * (block_height + padding) + block_height / 2).

(** The arrow between two successive extents: straight inside a row,
    bent over a middle point otherwise. *)
Definition arrow (prev_extent current : FreeExtent.t) : canvas_item :=
  let prev_row :=
    (FreeExtent.start prev_extent + FreeExtent.size prev_extent - 1) / GRID_COLS in
  let curr_row := FreeExtent.start current / GRID_COLS in
  let '(prev_x, prev_y) := arrow_from prev_extent in
  let '(curr_x, curr_y) := arrow_to current in
  if decide (prev_row = curr_row)
  then Line [inject_Z prev_x; inject_Z prev_y; inject_Z curr_x; inject_Z curr_y]
  else
    let mid_x := (inject_Z (prev_x + curr_x) / 2)%Q in
    let mid_y := Z.min prev_y curr_y - 20 in
    Line [inject_Z prev_x; inject_Z prev_y; mid_x; inject_Z mid_y;
          inject_Z curr_x; inject_Z curr_y].

(** The [while current:] walk of [draw_disk] over the chain. *)
Fixpoint draw_arrows (prev_extent : option FreeExtent.t)
    (current : list FreeExtent.t) : list canvas_item :=
  match current with
  | [] => []
  | c :: next =>
      match prev_extent with
      | Some p => arrow p c :: draw_arrows (Some c) next
      | None => draw_arrows (Some c) next
      end
  end.

(** The canvas after [draw_disk()] for the manager [m]; [canvas.delete("all")]
    empties it first.  The list [rects] of item ids is written but never
    read and is not modelled. *)
Definition draw_disk (m : HybridSpaceManager) : option (list canvas_item) :=
  blocks ← draw_blocks (bitmap m) 0 (range_len 0 DISK_SIZE);
  Some (blocks ++ draw_arrows None (free_list m)).

(** ** update_info *)

(** The lines for [enumerate(manager.groups, idx)]. *)
Fixpoint group_lines (idx : Z) (gs : list (Z * Z)) : string :=
  match gs with
  | [] => ""
  | g :: r =>
      "  Group " +:+ py_str idx +:+ ": Start=" +:+ py_str g.1
        +:+ ", Size=" +:+ py_str g.2 +:+ " blocks" +:+ nl
        +:+ group_lines (idx + 1) r
  end.

(** The text of the info panel after [update_info()]: everything inserted
    after the [delete("1.0", "end")]. *)
Definition update_info (m : HybridSpaceManager) : string :=
  let free_count := count_free (bitmap m) in
  let allocated_count := count_allocated (bitmap m) in
  "=== HYBRID FREE SPACE MANAGER INFO ===" +:+ nl +:+ nl
  +:+ "Total Disk Size: " +:+ py_str DISK_SIZE +:+ " blocks" +:+ nl
  +:+ "Allocated: " +:+ py_str allocated_count +:+ " blocks | Free: "
  +:+ py_str free_count +:+ " blocks" +:+ nl
  +:+ "Fragmentation: " +:+ py_str (Z.of_nat (length (groups m)))
  +:+ " free groups" +:+ nl +:+ nl
  +:+ "📋 LINKED LIST (Free Extents):" +:+ nl
  +:+ get_free_list_info m +:+ nl +:+ nl
  +:+ "📊 FREE SPACE GROUPS:" +:+ nl
  +:+ match groups m with
      | [] => "  No free space available" +:+ nl
      | gs => group_lines 1 gs
      end.

(** ** The buttons *)

(** What the window shows and holds: the global [manager], the items of
    the canvas and the text of the info panel. *)
Record gui : Type := mkGui {
  manager : HybridSpaceManager;
  canvas : list canvas_item;
  info_text : string
}.

(** The dialog a handler ends with. *)
Inductive messagebox : Type :=
| showinfo (title message : string)
| showerror (title message : string).

(** [draw_disk(); update_info()] *)
Definition refresh (m : HybridSpaceManager) : option gui :=
  c ← draw_disk m;
  Some (mkGui m c (update_info m)).

(** Module level: [manager = HybridSpaceManager(DISK_SIZE)], then
    [draw_disk()] and [update_info()]. *)
Definition startup : option gui :=
  m ← init DISK_SIZE;
  refresh m.

(** The Reset button: [manager.__init__(DISK_SIZE), draw_disk(), update_info()]. *)
Definition on_reset (g : gui) : option gui :=
  m ← init DISK_SIZE;
  refresh m.

Inductive gui_event : Type :=
| click_allocate (start_text count_text : string)
| click_deallocate (start_text count_text : string)
| click_reset.

Section Handlers.

(** [int(text)] of Python on the text of an entry: the integer, or [None]
    when it raises [ValueError].  The handlers are modelled for any such
    function. *)
Variable py_int : string → option Z.

Definition on_allocate (g : gui) (start_text count_text : string)
  : option (gui * messagebox) :=
  match py_int start_text with
  | None => Some (g, showerror "Error" "Enter valid numbers")
  | Some start =>
      match py_int count_text with
      | None => Some (g, showerror "Error" "Enter valid numbers")
      | Some n =>
          r ← allocate (manager g) start n;
          if (fst (snd r) : bool) then
            g' ← refresh (fst r);
            Some (g', showinfo "Success"
                        ("Allocated " +:+ py_str n +:+ " blocks starting at "
                           +:+ py_str start))
          else
            Some (mkGui (fst r) (canvas g) (info_text g),
                  showerror "Error"
                    ("Cannot allocate " +:+ py_str n +:+ " blocks at position "
                       +:+ py_str start))
      end
  end.

Definition on_deallocate (g : gui) (start_text count_text : string)
  : option (gui * messagebox) :=
  match py_int start_text with
  | None => Some (g, showerror "Error" "Enter valid numbers")
  | Some start =>
      match py_int count_text with
      | None => Some (g, showerror "Error" "Enter valid numbers")
      | Some count =>
          r ← deallocate (manager g) start count;
          if (snd r : bool) then
            g' ← refresh (fst r);
            Some (g', showinfo "Success"
                        ("Deallocated " +:+ py_str count +:+ " blocks from "
                           +:+ py_str start))
          else
            Some (mkGui (fst r) (canvas g) (info_text g),
                  showerror "Error" "Invalid deallocation parameters")
      end
  end.

(** One click: the window afterwards and the dialog shown, if any. *)
Definition handle (g : gui) (e : gui_event) : option (gui * option messagebox) :=
  match e with
  | click_allocate st ct => r ← on_allocate g st ct; Some (fst r, Some (snd r))
  | click_deallocate st ct => r ← on_deallocate g st ct; Some (fst r, Some (snd r))
  | click_reset => g' ← on_reset g; Some (g', None)
  end.

(** A session: the window after a sequence of clicks. *)
Fixpoint gui_run (g : gui) (es : list gui_event) : option gui :=
  match es with
  | [] => Some g
  | e :: es' => r ← handle g e; gui_run (fst r) es'
  end.

End Handlers.

(** The window shows the manager it holds, a manager of DISK_SIZE blocks
    that was reached by calls. *)
Definition in_step (g : gui) : Prop :=
  reachable (manager g) ∧ disk_size (manager g) = DISK_SIZE ∧
  draw_disk (manager g) = Some (canvas g) ∧
  update_info (manager g) = info_text g.

(** * Lemmas and theorems *)

(** ** Python primitives on in-range indices *)

Lemma getitem_in_range {A} (l : list A) (i : Z) :
  0 <= i < Z.of_nat (length l) → getitem l i = l !! Z.to_nat i.
Proof.
  intros Hi. unfold getitem, py_index. cbn zeta.
  destruct (decide (0 <= i < Z.of_nat (length l))); [reflexivity | lia].
Qed.

Lemma setitem_in_range {A} (l : list A) (i : Z) (x : A) :
  0 <= i < Z.of_nat (length l) → setitem l i x = Some (<[Z.to_nat i:=x]> l).
Proof.
  intros Hi. unfold setitem, py_index. cbn zeta.
  destruct (decide (0 <= i < Z.of_nat (length l))); [reflexivity | lia].
Qed.

Lemma lookup_in_range {A} (l : list A) (i : Z) :
  0 <= i < Z.of_nat (length l) → ∃ x, l !! Z.to_nat i = Some x.
Proof.
  intros Hi. apply lookup_lt_is_Some_2. lia.
Qed.

(** ** Facts on ranges *)

Lemma covered_nil i : covered [] i ↔ False.
Proof. unfold covered. rewrite Exists_nil. tauto. Qed.

Lemma covered_cons g l i :
  covered (g :: l) i ↔ g.1 <= i < g.1 + g.2 ∨ covered l i.
Proof. unfold covered. rewrite Exists_cons. tauto. Qed.

Lemma covered_app l1 l2 i : covered (l1 ++ l2) i ↔ covered l1 i ∨ covered l2 i.
Proof. unfold covered. rewrite Exists_app. tauto. Qed.

Lemma wfl_mono lo hi lo' hi' l :
  wfl lo hi l → lo' <= lo → hi <= hi' → wfl lo' hi' l.
Proof.
  revert lo lo'. induction l as [|g r IH]; simpl; [tauto|].
  intros lo lo' (H1 & H2 & H3 & H4) Hlo Hhi.
  repeat split; try lia. eapply IH; [exact H4 | lia | lia].
Qed.

Lemma wfl_snoc lo hi hi' l a len :
  wfl lo hi l → lo <= a → hi < a → 0 < len → a + len <= hi' →
  wfl lo hi' (l ++ [(a, len)]).
Proof.
  revert lo. induction l as [|g r IH]; simpl; intros lo Hw Hlo Hhi Hlen Hend.
  - repeat split; lia.
  - destruct Hw as (H1 & H2 & H3 & H4).
    repeat split; try lia. apply IH; auto; lia.
Qed.

Lemma wfl_covered lo hi l i : wfl lo hi l → covered l i → lo <= i < hi.
Proof.
  revert lo. induction l as [|g r IH]; simpl; intros lo Hw Hc.
  - apply covered_nil in Hc. tauto.
  - destruct Hw as (H1 & H2 & H3 & H4).
    apply covered_cons in Hc. destruct Hc as [Hc|Hc]; [lia|].
    specialize (IH _ H4 Hc). lia.
Qed.

Lemma sum_len_snoc l g : sum_len (l ++ [g]) = sum_len l + g.2.
Proof.
  unfold sum_len. induction l as [|x r IH]; simpl; lia.
Qed.

Lemma count_free_snoc l b :
  count_free (l ++ [b]) = count_free l + (if decide (b = 0) then 1 else 0).
Proof.
  unfold count_free. rewrite filter_app, length_app.
  rewrite filter_cons, filter_nil. destruct (decide (b = 0)); simpl; lia.
Qed.

(** ** The scan of update_groups *)

Lemma scan_step_ok bm k st :
  0 <= k < Z.of_nat (length bm) → scan_inv bm k st →
  ∃ st', scan_step bm k st = Some st' ∧ scan_inv bm (k + 1) st'.
Proof.
  intros Hk (Hw & Hc & Hg & Hs).
  destruct (lookup_in_range bm k Hk) as [b Hb].
  unfold scan_step. rewrite getitem_in_range by exact Hk. rewrite Hb. simpl.
  assert (Htake : take (Z.to_nat (k + 1)) bm = take (Z.to_nat k) bm ++ [b]).
  { replace (Z.to_nat (k + 1)) with (S (Z.to_nat k)) by lia.
    by apply take_S_r. }
  assert (Hfk : is_free bm k ↔ b = 0).
  { unfold is_free. rewrite Hb. split; [intros [_ ?]; congruence|].
    intros ->. split; [lia|reflexivity]. }
  assert (Hnc : ¬ covered (sc_groups st) k).
  { intros Hcov. pose proof (wfl_covered _ _ _ _ Hw Hcov) as Hb'.
    destruct (in_group st); [specialize (Hg eq_refl)|]; lia. }
  destruct (decide (b = 0)) as [Hb0|Hb0]; destruct (in_group st) eqn:Hin.
  - (* free, already inside a group *)
    eexists; split; [reflexivity|]. specialize (Hg eq_refl).
    unfold scan_inv. rewrite Hin. split; [exact Hw|]. split; [|split; [lia|]].
    + intros i Hi. destruct (decide (i = k)) as [->|Hik].
      * split; [intros _; right; split; [reflexivity | lia]|].
        intros _. apply Hfk. exact Hb0.
      * apply Hc. lia.
    + rewrite Htake, count_free_snoc, <- Hs.
      destruct (decide (b = 0)); [lia | contradiction].
  - (* free, a new group starts *)
    eexists; split; [reflexivity|].
    unfold scan_inv; simpl. split; [exact Hw|]. split; [|split; [lia|]].
    + intros i Hi. destruct (decide (i = k)) as [->|Hik].
      * split; [intros _; right; split; [reflexivity | lia]|].
        intros _. apply Hfk. exact Hb0.
      * rewrite Hc by lia. split.
        -- intros [Hf|[Hf _]]; [left; exact Hf | discriminate].
        -- intros [Hf|[_ Hf]]; [left; exact Hf | lia].
    + rewrite Htake, count_free_snoc, <- Hs.
      destruct (decide (b = 0)); [lia | contradiction].
  - (* allocated, the open group is closed *)
    eexists; split; [reflexivity|]. specialize (Hg eq_refl).
    unfold scan_inv; simpl. split; [|split; [|split; [discriminate|]]].
    + eapply wfl_snoc; [exact Hw | lia | lia | lia | lia].
    + intros i Hi. rewrite covered_app, covered_cons, covered_nil. simpl.
      destruct (decide (i = k)) as [->|Hik].
      * split; [intros Hf; apply Hfk in Hf; contradiction|].
        intros [[Hf|[Hf|[]]]|[Hf _]]; [contradiction | lia | discriminate].
      * rewrite Hc by lia. split.
        -- intros [Hf|[_ Hf]]; [tauto|]. left. right. left. lia.
        -- intros [[Hf|[Hf|[]]]|[Hf _]]; [tauto | | discriminate].
           right. split; [reflexivity | lia].
    + rewrite Htake, count_free_snoc, sum_len_snoc, <- Hs. simpl.
      destruct (decide (b = 0)); [contradiction | lia].
  - (* allocated, outside any group *)
    eexists; split; [reflexivity|].
    unfold scan_inv. rewrite Hin. split; [|split; [|split; [discriminate|]]].
    + eapply wfl_mono; [exact Hw | lia | lia].
    + intros i Hi. destruct (decide (i = k)) as [->|Hik].
      * split; [intros Hf; apply Hfk in Hf; contradiction|].
        intros [Hf|[Hf _]]; [contradiction | discriminate].
      * apply Hc. lia.
    + rewrite Htake, count_free_snoc, <- Hs.
      destruct (decide (b = 0)); [contradiction | lia].
Qed.

Lemma scan_ok bm cnt : ∀ k st,
  0 <= k → k + Z.of_nat cnt <= Z.of_nat (length bm) → scan_inv bm k st →
  ∃ st', scan bm k cnt st = Some st' ∧ scan_inv bm (k + Z.of_nat cnt) st'.
Proof.
  induction cnt as [|c IH]; intros k st Hk Hlen Hinv.
  - exists st. split; [reflexivity|]. by replace (k + Z.of_nat 0) with k by lia.
  - destruct (scan_step_ok bm k st) as (st1 & Hstep & Hinv1); [lia | exact Hinv |].
    destruct (IH (k + 1) st1) as (st2 & Hscan & Hinv2); [lia | lia | exact Hinv1 |].
    exists st2. split.
    + simpl. rewrite Hstep. simpl. exact Hscan.
    + by replace (k + Z.of_nat (S c)) with (k + 1 + Z.of_nat c) by lia.
Qed.

Lemma derive_groups_ok bm dsz :
  (Z.to_nat dsz ≤ length bm)%nat →
  ∃ gs, derive_groups bm dsz = Some gs ∧
        wfl 0 dsz gs ∧
        (∀ i, 0 <= i < dsz → (is_free bm i ↔ covered gs i)) ∧
        sum_len gs = count_free (take (Z.to_nat dsz) bm).
Proof.
  intros Hlen.
  destruct (decide (dsz < 0)) as [Hneg|Hpos].
  { unfold derive_groups, range_len.
    replace (Z.to_nat (dsz - 0)) with 0%nat by lia.
    replace (Z.to_nat dsz) with 0%nat by lia. simpl.
    eexists; split; [reflexivity|]. split; [exact I|].
    split; [intros; lia | reflexivity]. }
  destruct (scan_ok bm (range_len 0 dsz) 0 (mkScan [] false 0))
    as (st & Hscan & Hw & Hc & Hg & Hs).
  - lia.
  - unfold range_len. lia.
  - unfold scan_inv; simpl. split; [exact I|]. split; [intros; lia|].
    split; [discriminate|]. reflexivity.
  - unfold derive_groups. rewrite Hscan. simpl.
    eexists; split; [reflexivity|].
    assert (Hk : ∀ i, 0 <= i < dsz → 0 <= i < 0 + Z.of_nat (range_len 0 dsz))
      by (unfold range_len; lia).
    assert (Hn : Z.to_nat (0 + Z.of_nat (range_len 0 dsz)) = Z.to_nat dsz)
      by (unfold range_len; lia).
    rewrite Hn in Hs.
    destruct (in_group st) eqn:Hin.
    + specialize (Hg eq_refl).
      assert (Hd : 0 + Z.of_nat (range_len 0 dsz) = dsz)
        by (unfold range_len in *; lia).
      rewrite Hd in *. split; [|split].
      * eapply wfl_snoc; [exact Hw | lia | lia | lia | lia].
      * intros i Hi. rewrite (Hc i Hi), covered_app, covered_cons, covered_nil.
        simpl. split.
        -- intros [Hf|[_ Hf]]; [tauto|]. right. left. lia.
        -- intros [Hf|[Hf|[]]]; [tauto|]. right. split; [reflexivity | lia].
      * rewrite sum_len_snoc. simpl. lia.
    + split; [|split].
      * eapply wfl_mono; [exact Hw | lia | unfold range_len; lia].
      * intros i Hi. rewrite (Hc i (Hk i Hi)). split; [|tauto].
        intros [Hf|[Hf _]]; [exact Hf | discriminate].
      * lia.
Qed.

(** A representation by ranges is determined by the blocks it covers. *)
Lemma wfl_unique l1 : ∀ l2 lo hi,
  wfl lo hi l1 → wfl lo hi l2 →
  (∀ i, lo <= i < hi → (covered l1 i ↔ covered l2 i)) → l1 = l2.
Proof.
  induction l1 as [|g1 r1 IH]; intros [|g2 r2] lo hi Hw1 Hw2 Hcov.
  - reflexivity.
  - simpl in Hw2. destruct Hw2 as (H1 & H2 & H3 & _).
    exfalso. apply (covered_nil (g2.1)). apply Hcov; [lia|].
    apply covered_cons. left. lia.
  - simpl in Hw1. destruct Hw1 as (H1 & H2 & H3 & _).
    exfalso. apply (covered_nil (g1.1)). apply Hcov; [lia|].
    apply covered_cons. left. lia.
  - simpl in Hw1, Hw2.
    destruct Hw1 as (A1 & A2 & A3 & A4). destruct Hw2 as (B1 & B2 & B3 & B4).
    assert (Hs : g1.1 = g2.1).
    { destruct (Z.lt_trichotomy (g1.1) (g2.1)) as [Hlt|[Heq|Hlt]]; [|exact Heq|].
      - exfalso. assert (Hc : covered (g2 :: r2) (g1.1)).
        { apply Hcov; [lia|]. apply covered_cons. left. lia. }
        apply covered_cons in Hc. destruct Hc as [Hc|Hc]; [lia|].
        pose proof (wfl_covered _ _ _ _ B4 Hc). lia.
      - exfalso. assert (Hc : covered (g1 :: r1) (g2.1)).
        { apply Hcov; [lia|]. apply covered_cons. left. lia. }
        apply covered_cons in Hc. destruct Hc as [Hc|Hc]; [lia|].
        pose proof (wfl_covered _ _ _ _ A4 Hc). lia. }
    assert (Hz : g1.2 = g2.2).
    { destruct (Z.lt_trichotomy (g1.2) (g2.2)) as [Hlt|[Heq|Hlt]]; [|exact Heq|].
      - exfalso. assert (Hc : covered (g1 :: r1) (g1.1 + g1.2)).
        { apply Hcov; [lia|]. apply covered_cons. left. lia. }
        apply covered_cons in Hc. destruct Hc as [Hc|Hc]; [lia|].
        pose proof (wfl_covered _ _ _ _ A4 Hc). lia.
      - exfalso. assert (Hc : covered (g2 :: r2) (g2.1 + g2.2)).
        { apply Hcov; [lia|]. apply covered_cons. left. lia. }
        apply covered_cons in Hc. destruct Hc as [Hc|Hc]; [lia|].
        pose proof (wfl_covered _ _ _ _ B4 Hc). lia. }
    assert (Hg : g1 = g2) by (destruct g1, g2; simpl in *; congruence).
    subst g2. f_equal. apply (IH r2 (g1.1 + g1.2 + 1) hi A4 B4).
    intros i Hi. split; intros Hc.
    + assert (Hc' : covered (g1 :: r2) i).
      { apply Hcov; [lia|]. apply covered_cons. right. exact Hc. }
      apply covered_cons in Hc'. destruct Hc' as [Hc'|Hc']; [lia | exact Hc'].
    + assert (Hc' : covered (g1 :: r1) i).
      { apply Hcov; [lia|]. apply covered_cons. right. exact Hc. }
      apply covered_cons in Hc'. destruct Hc' as [Hc'|Hc']; [lia | exact Hc'].
Qed.

Lemma wfl_elem lo hi l g :
  wfl lo hi l → g ∈ l → lo <= g.1 ∧ 0 < g.2 ∧ g.1 + g.2 <= hi.
Proof.
  revert lo. induction l as [|x r IH]; intros lo Hw Hin.
  - by apply elem_of_nil in Hin.
  - simpl in Hw. destruct Hw as (H1 & H2 & H3 & H4).
    apply elem_of_cons in Hin. destruct Hin as [->|Hin]; [lia|].
    specialize (IH _ H4 Hin). lia.
Qed.

Lemma wfl_apart lo hi l g g' :
  wfl lo hi l → g ∈ l → g' ∈ l →
  g = g' ∨ g.1 + g.2 < g'.1 ∨ g'.1 + g'.2 < g.1.
Proof.
  revert lo. induction l as [|x r IH]; intros lo Hw Hin Hin'.
  - by apply elem_of_nil in Hin.
  - simpl in Hw. destruct Hw as (H1 & H2 & H3 & H4).
    apply elem_of_cons in Hin. apply elem_of_cons in Hin'.
    destruct Hin as [->|Hin], Hin' as [->|Hin'].
    + by left.
    + pose proof (wfl_elem _ _ _ _ H4 Hin'). right. left. lia.
    + pose proof (wfl_elem _ _ _ _ H4 Hin). right. right. lia.
    + eapply IH; eauto.
Qed.

Lemma covered_elem l i : covered l i ↔ ∃ g, g ∈ l ∧ g.1 <= i < g.1 + g.2.
Proof. unfold covered. apply Exists_exists. Qed.

Lemma wfl_sorted lo hi l : wfl lo hi l → StronglySorted apart l.
Proof.
  revert lo. induction l as [|x r IH]; intros lo Hw; [constructor|].
  simpl in Hw. destruct Hw as (H1 & H2 & H3 & H4).
  constructor; [eapply IH; exact H4|].
  apply List.Forall_forall. intros g Hg. apply list_elem_of_In in Hg.
  pose proof (wfl_elem _ _ _ _ H4 Hg). unfold apart. lia.
Qed.

Lemma wfl_maximal_runs bm dsz gs :
  wfl 0 dsz gs →
  (∀ i, 0 <= i < dsz → (is_free bm i ↔ covered gs i)) →
  ∀ g, g ∈ gs ↔ maximal_free_run bm dsz g.
Proof.
  intros Hw Hc.
  assert (Hfwd : ∀ g, g ∈ gs → maximal_free_run bm dsz g).
  { intros g Hg. pose proof (wfl_elem _ _ _ _ Hw Hg) as (B1 & B2 & B3).
    assert (Hout : ∀ i, 0 <= i < dsz → ¬ g.1 <= i < g.1 + g.2 →
                        g.1 - 1 <= i <= g.1 + g.2 → ¬ is_free bm i).
    { intros i Hi Hni Hnear Hf. apply Hc in Hf; [|exact Hi].
      apply covered_elem in Hf. destruct Hf as (g' & Hg' & Hi').
      destruct (wfl_apart _ _ _ _ _ Hw Hg Hg') as [->|[?|?]]; lia. }
    split; [lia|]. split; [lia|]. split; [lia|]. split; [|split].
    - intros i Hi. apply Hc; [lia|]. apply covered_elem. eauto.
    - destruct (decide (g.1 = 0)); [by left|]. right. apply Hout; lia.
    - destruct (decide (g.1 + g.2 = dsz)); [by left|]. right. apply Hout; lia. }
  intros g. split; [apply Hfwd|].
  intros (B1 & B2 & B3 & Hall & Hl & Hr).
  assert (Hf : is_free bm (g.1)) by (apply Hall; lia).
  apply Hc in Hf; [|lia]. apply covered_elem in Hf.
  destruct Hf as (g' & Hg' & Hi').
  destruct (Hfwd g' Hg') as (C1 & C2 & C3 & Hall' & Hl' & Hr').
  assert (Hs : g'.1 = g.1).
  { destruct (decide (g'.1 = g.1)) as [|Hne]; [done|]. exfalso.
    destruct Hl as [Hl|Hl]; [lia|]. apply Hl. apply Hall'. lia. }
  assert (Hz : g'.2 = g.2).
  { destruct (Z.lt_trichotomy (g'.2) (g.2)) as [Hlt|[Heq|Hlt]]; [|exact Heq|].
    - exfalso. destruct Hr' as [Hr'|Hr']; [lia|]. apply Hr'. apply Hall. lia.
    - exfalso. destruct Hr as [Hr|Hr]; [lia|]. apply Hr. apply Hall'. lia. }
  replace g with g'; [exact Hg'|]. destruct g, g'; simpl in *; congruence.
Qed.

(** ** The two bitmap loops *)

Lemma mark_ok v cnt : ∀ i bm,
  0 <= i → i + Z.of_nat cnt <= Z.of_nat (length bm) →
  ∃ bm', mark bm v i cnt = Some bm' ∧ length bm' = length bm ∧
         ∀ k : nat, bm' !! k =
           if decide (i <= Z.of_nat k < i + Z.of_nat cnt) then Some v else bm !! k.
Proof.
  induction cnt as [|c IH]; intros i bm Hi Hlen.
  - exists bm. split; [reflexivity|]. split; [reflexivity|].
    intros k. destruct (decide _); [lia | reflexivity].
  - simpl. rewrite setitem_in_range by lia. simpl.
    destruct (IH (i + 1) (<[Z.to_nat i:=v]> bm)) as (bm' & Hm & Hl & Hk).
    { lia. } { rewrite length_insert. lia. }
    exists bm'. split; [exact Hm|]. split; [by rewrite Hl, length_insert|].
    intros k. rewrite Hk.
    destruct (decide (i + 1 <= Z.of_nat k < i + 1 + Z.of_nat c)) as [H1|H1].
    + destruct (decide _); [reflexivity | lia].
    + destruct (decide (Z.to_nat i = k)) as [<-|Hne].
      * rewrite list_lookup_insert_eq by lia.
        destruct (decide _); [reflexivity | lia].
      * rewrite list_lookup_insert_ne by exact Hne.
        destruct (decide _); [lia | reflexivity].
Qed.

Lemma check_free_ok bm cnt : ∀ i,
  0 <= i → i + Z.of_nat cnt <= Z.of_nat (length bm) →
  ∃ b, check_free bm i cnt = Some b ∧
       (b = true ↔ ∀ k, i <= k < i + Z.of_nat cnt → bm !! Z.to_nat k ≠ Some 1).
Proof.
  induction cnt as [|c IH]; intros i Hi Hlen.
  - exists true. split; [reflexivity|]. split; [intros _ k Hk; lia | reflexivity].
  - simpl. rewrite getitem_in_range by lia.
    destruct (lookup_in_range bm i) as [b Hb]; [lia|]. rewrite Hb. simpl.
    destruct (decide (b = 1)) as [->|Hb1].
    + exists false. split; [reflexivity|]. split; [discriminate|].
      intros Hall. exfalso. apply (Hall i); [lia | exact Hb].
    + destruct (IH (i + 1)) as (b' & Hc & Hiff); [lia | lia |].
      exists b'. split; [exact Hc|]. rewrite Hiff. split.
      * intros Hall k Hk. destruct (decide (k = i)) as [->|Hne].
        -- rewrite Hb. congruence.
        -- apply Hall. lia.
      * intros Hall k Hk. apply Hall. lia.
Qed.

(** A failed occupancy check has met an allocated block. *)
Lemma check_free_false bm cnt : ∀ i,
  check_free bm i cnt = Some false →
  ∃ k, i <= k < i + Z.of_nat cnt ∧ getitem bm k = Some 1.
Proof.
  induction cnt as [|c IH]; intros i Hc; [discriminate|].
  simpl in Hc. destruct (getitem bm i) as [b|] eqn:Hb; [|discriminate].
  simpl in Hc. destruct (decide (b = 1)) as [->|Hb1].
  - exists i. split; [lia | exact Hb].
  - destruct (IH _ Hc) as (k & Hk & Hg). exists k. split; [lia | exact Hg].
Qed.

(** ** The chain walk of allocate *)

Lemma containing_extent lo hi l start n :
  wfl lo hi l → 1 <= n →
  (∀ i, start <= i < start + n → covered l i) →
  ∃ e, e ∈ l ∧ e.1 <= start ∧ start + n <= e.1 + e.2.
Proof.
  intros Hw Hn Hall.
  assert (Hc : covered l start) by (apply Hall; lia).
  apply covered_elem in Hc. destruct Hc as (e & He & Hin).
  exists e. split; [exact He|]. split; [lia|].
  destruct (decide (start + n <= e.1 + e.2)) as [|Hlt]; [done|]. exfalso.
  assert (Hc : covered l (e.1 + e.2)) by (apply Hall; lia).
  apply covered_elem in Hc. destruct Hc as (e' & He' & Hin').
  destruct (wfl_apart _ _ _ _ _ Hw He He') as [->|[?|?]]; lia.
Qed.

Lemma remove_range_ok start n fl : ∀ lo hi,
  wfl lo hi (ranges fl) → 1 <= n →
  (∃ e, e ∈ ranges fl ∧ e.1 <= start ∧ start + n <= e.1 + e.2) →
  wfl lo hi (ranges (remove_range fl start n)) ∧
  ∀ i, covered (ranges (remove_range fl start n)) i ↔
       covered (ranges fl) i ∧ ¬ start <= i < start + n.
Proof.
  induction fl as [|[cs cz] next IH]; intros lo hi Hw Hn (e & He & Hes & Hee).
  - by apply elem_of_nil in He.
  - simpl in Hw. destruct Hw as (H1 & H2 & H3 & H4).
    assert (Hnext : ∀ i, covered (ranges next) i → cs + cz + 1 <= i).
    { intros i Hc. pose proof (wfl_covered _ _ _ _ H4 Hc). lia. }
    simpl. destruct (decide (cs <= start ∧ cs + cz >= start + n)) as [Hin|Hout].
    + destruct (decide (cs = start ∧ cz = n)) as [[-> ->]|Hne];
        [|destruct (decide (cs = start)) as [->|Hns];
          [|destruct (decide (cs + cz = start + n)) as [Hend|Hnend]]].
      * split; [eapply wfl_mono; [exact H4 | lia | lia]|].
        intros i. rewrite covered_cons. simpl. specialize (Hnext i). intuition lia.
      * split.
        -- simpl. split; [lia|]. split; [lia|]. split; [lia|].
           eapply wfl_mono; [exact H4 | lia | lia].
        -- intros i. simpl. rewrite !covered_cons. simpl.
           specialize (Hnext i). intuition lia.
      * split.
        -- simpl. split; [lia|]. split; [lia|]. split; [lia|].
           eapply wfl_mono; [exact H4 | lia | lia].
        -- intros i. simpl. rewrite !covered_cons. simpl.
           specialize (Hnext i). intuition lia.
      * split.
        -- simpl. split; [lia|]. split; [lia|]. split; [lia|].
           split; [lia|]. split; [lia|]. split; [lia|].
           eapply wfl_mono; [exact H4 | lia | lia].
        -- intros i. simpl. rewrite !covered_cons. simpl.
           specialize (Hnext i). intuition lia.
    + simpl in He. apply elem_of_cons in He. destruct He as [->|He].
      { simpl in *. lia. }
      pose proof (wfl_elem _ _ _ _ H4 He) as Hb.
      destruct (IH (cs + cz + 1) hi H4 Hn) as (Hw' & Hc'); [by eauto|].
      split.
      * simpl. split; [lia|]. split; [lia|]. split; [lia|]. exact Hw'.
      * intros i. simpl. rewrite !covered_cons. simpl. rewrite Hc'.
        intuition lia.
Qed.

(** ** The chain walk of deallocate *)

Lemma insert_walk_some start n current : ∀ p lo hi,
  wfl lo hi (ranges (p :: current)) → 1 <= n → start + n <= hi →
  (∀ i, start <= i < start + n → ¬ covered (ranges (p :: current)) i) →
  FreeExtent.start p < start →
  wfl lo hi (ranges (insert_walk (Some p) current start n)) ∧
  ∀ i, covered (ranges (insert_walk (Some p) current start n)) i ↔
       covered (ranges (p :: current)) i ∨ start <= i < start + n.
Proof.
  induction current as [|[cs cz] next IH]; intros [ps pz] lo hi Hw Hn Hhi Hdis Hp.
  - simpl in *. destruct Hw as (H1 & H2 & H3 & _).
    assert (Hend : ps + pz <= start).
    { destruct (decide (ps + pz <= start)); [done|]. exfalso.
      apply (Hdis start); [lia|]. apply covered_cons. left. simpl. lia. }
    unfold merge_prev. simpl. destruct (decide (ps + pz = start)) as [He|He].
    + split; [simpl; lia|]. intros i. simpl. rewrite !covered_cons, covered_nil.
      simpl. lia.
    + split; [simpl; lia|]. intros i. simpl. rewrite !covered_cons, covered_nil.
      simpl. lia.
  - simpl in Hw, Hp. destruct Hw as (H1 & H2 & H3 & H4 & H5 & H6 & H7).
    assert (Hend : ps + pz <= start).
    { destruct (decide (ps + pz <= start)); [done|]. exfalso.
      apply (Hdis start); [lia|]. apply covered_cons. left. simpl. lia. }
    assert (Hnext : ∀ i, covered (ranges next) i → cs + cz + 1 <= i).
    { intros i Hc. pose proof (wfl_covered _ _ _ _ H7 Hc). lia. }
    simpl. destruct (decide (cs < start)) as [Hlt|Hge].
    + destruct (IH (FreeExtent.mk cs cz) (ps + pz + 1) hi) as (Hw' & Hc').
      * simpl. auto.
      * exact Hn.
      * exact Hhi.
      * intros i Hi Hc. apply (Hdis i Hi). simpl. apply covered_cons. by right.
      * simpl. exact Hlt.
      * split; [simpl; auto|].
        intros i. simpl. rewrite covered_cons. simpl. rewrite Hc'. simpl.
        rewrite !covered_cons. simpl. tauto.
    + assert (Hcs : start + n <= cs).
      { destruct (decide (start + n <= cs)); [done|]. exfalso.
        apply (Hdis cs); [lia|]. simpl. rewrite !covered_cons. simpl. lia. }
      unfold merge_next, merge_prev. simpl.
      destruct (decide (cs = start + n)) as [Hadj|Hnadj]; simpl;
        destruct (decide (ps + pz = start)) as [He|He].
      * split.
        -- simpl. split; [lia|]. split; [lia|]. split; [lia|].
           eapply wfl_mono; [exact H7 | lia | lia].
        -- intros i. simpl. rewrite !covered_cons. simpl.
           specialize (Hnext i). intuition lia.
      * split.
        -- simpl. split; [lia|]. split; [lia|]. split; [lia|].
           split; [lia|]. split; [lia|]. split; [lia|].
           eapply wfl_mono; [exact H7 | lia | lia].
        -- intros i. simpl. rewrite !covered_cons. simpl.
           specialize (Hnext i). intuition lia.
      * split.
        -- simpl. split; [lia|]. split; [lia|]. split; [lia|].
           split; [lia|]. split; [lia|]. split; [lia|]. exact H7.
        -- intros i. simpl. rewrite !covered_cons. simpl.
           specialize (Hnext i). intuition lia.
      * split.
        -- simpl. split; [lia|]. split; [lia|]. split; [lia|].
           split; [lia|]. split; [lia|]. split; [lia|].
           split; [lia|]. split; [lia|]. split; [lia|]. exact H7.
        -- intros i. simpl. rewrite !covered_cons. simpl.
           specialize (Hnext i). intuition lia.
Qed.

Lemma insert_extent_walk fl start n :
  insert_extent fl start n = insert_walk None fl start n.
Proof. destruct fl; reflexivity. Qed.

Lemma insert_extent_ok start n fl lo hi :
  wfl lo hi (ranges fl) → 1 <= n → lo <= start → start + n <= hi →
  (∀ i, start <= i < start + n → ¬ covered (ranges fl) i) →
  wfl lo hi (ranges (insert_extent fl start n)) ∧
  ∀ i, covered (ranges (insert_extent fl start n)) i ↔
       covered (ranges fl) i ∨ start <= i < start + n.
Proof.
  intros Hw Hn Hlo Hhi Hdis. rewrite insert_extent_walk.
  destruct fl as [|[cs cz] next].
  - simpl. split; [lia|]. intros i. rewrite covered_cons, covered_nil. simpl. lia.
  - simpl. destruct (decide (cs < start)) as [Hlt|Hge].
    + apply insert_walk_some; auto.
    + simpl in Hw. destruct Hw as (H1 & H2 & H3 & H4).
      assert (Hnext : ∀ i, covered (ranges next) i → cs + cz + 1 <= i).
      { intros i Hc. pose proof (wfl_covered _ _ _ _ H4 Hc). lia. }
      assert (Hcs : start + n <= cs).
      { destruct (decide (start + n <= cs)); [done|]. exfalso.
        apply (Hdis cs); [lia|]. simpl. rewrite !covered_cons. simpl. lia. }
      unfold merge_next, merge_prev. simpl.
      destruct (decide (cs = start + n)) as [Hadj|Hnadj]; simpl.
      * split.
        -- split; [lia|]. split; [lia|]. split; [lia|].
           eapply wfl_mono; [exact H4 | lia | lia].
        -- intros i. rewrite !covered_cons. simpl.
           specialize (Hnext i). intuition lia.
      * split.
        -- split; [lia|]. split; [lia|]. split; [lia|].
           split; [lia|]. split; [lia|]. split; [lia|]. exact H4.
        -- intros i. rewrite !covered_cons. simpl.
           specialize (Hnext i). intuition lia.
Qed.

(** ** From the representation to the invariants *)

Lemma count_free_allocated bm :
  Forall (λ b, b = 0 ∨ b = 1) bm →
  count_free bm + count_allocated bm = Z.of_nat (length bm).
Proof.
  unfold count_free, count_allocated.
  induction 1 as [|b r Hb _ IH]; [reflexivity|].
  rewrite !filter_cons.
  destruct Hb as [-> | ->]; repeat case_decide; simpl in *; lia.
Qed.

Lemma Rep_Inv dsz bm fl g0 :
  Rep dsz bm fl →
  ∃ s', update_groups (mkManager dsz bm fl g0) = Some s' ∧
        s' = mkManager dsz bm fl (ranges fl) ∧ Inv s'.
Proof.
  intros (Hlen & Hbits & Hpos & Hw & Hc).
  destruct (derive_groups_ok bm dsz) as (gs & Hd & Hgw & Hgc & Hgs); [lia|].
  assert (Heq : gs = ranges fl).
  { apply (wfl_unique gs (ranges fl) 0 dsz Hgw Hw).
    intros i Hi. rewrite <- (Hgc i Hi). apply Hc. exact Hi. }
  subst gs. unfold update_groups. simpl. rewrite Hd. simpl.
  eexists; split; [reflexivity|]. split; [reflexivity|].
  unfold Inv, wf, inv1, inv2, inv3, inv4, extents. simpl.
  split; [by split|]. split; [|split; [|split; [|by split]]].
  - intros i Hi. rewrite <- (Hc i Hi). unfold is_free.
    destruct (lookup_in_range bm i) as [b Hb]; [lia|]. rewrite Hb.
    rewrite Forall_lookup in Hbits. specialize (Hbits _ _ Hb).
    split.
    + intros Hone [_ Hzero]. congruence.
    + intros Hn. destruct Hbits as [-> | ->]; [|reflexivity].
      exfalso. apply Hn. split; [lia | reflexivity].
  - eapply wfl_sorted. exact Hw.
  - rewrite Hgs. rewrite take_ge by lia.
    rewrite (count_free_allocated bm Hbits). lia.
Qed.

Lemma Inv_Rep s : Inv s → Rep (disk_size s) (bitmap s) (free_list s).
Proof.
  intros ((Hlen & Hbits) & _ & _ & H3 & Hd & Hg).
  destruct (derive_groups_ok (bitmap s) (disk_size s))
    as (gs & Hd' & Hgw & Hgc & Hgs); [lia|].
  rewrite Hd in Hd'. injection Hd' as <-. unfold extents in Hg. rewrite Hg in *.
  split; [exact Hlen|]. split; [exact Hbits|]. split; [|split; [exact Hgw|exact Hgc]].
  unfold inv3, extents in H3. rewrite Hgs in H3.
  unfold count_free, count_allocated in H3. lia.
Qed.

(** ** allocate and deallocate preserve the invariants *)

Lemma range_len_n start n : range_len start (start + n) = Z.to_nat n.
Proof. unfold range_len. f_equal. lia. Qed.

Lemma blocks_all_lookup v bm start n :
  blocks_all v bm start n = true → 0 <= start →
  start + n <= Z.of_nat (length bm) →
  ∀ i, start <= i < start + n → bm !! Z.to_nat i = Some v.
Proof.
  unfold blocks_all. intros Hall Hs Hlen i Hi.
  apply bool_decide_eq_true in Hall. rewrite Forall_lookup in Hall.
  destruct (lookup_in_range bm i) as [b Hb]; [lia|]. rewrite Hb. f_equal.
  apply (Hall (Z.to_nat (i - start))).
  rewrite lookup_take_lt by lia. rewrite lookup_drop.
  replace (Z.to_nat start + Z.to_nat (i - start))%nat with (Z.to_nat i) by lia.
  exact Hb.
Qed.

Lemma allocate_ok s start n :
  Inv s → 1 <= n → 0 <= start → start + n <= disk_size s →
  (∀ i, start <= i < start + n → bitmap s !! Z.to_nat i = Some 0) →
  ∃ s', allocate s start n = Some (s', (true, start)) ∧ Inv s' ∧
        disk_size s' = disk_size s ∧
        free_list s' = remove_range (free_list s) start n ∧
        ∀ k : nat, bitmap s' !! k =
          if decide (start <= Z.of_nat k < start + n) then Some 1
          else bitmap s !! k.
Proof.
  intros HI Hn Hs He Hfree.
  destruct (Inv_Rep s HI) as (Hlen & Hbits & Hpos & Hw & Hc).
  unfold allocate. destruct (decide (start < 0 ∨ start + n > disk_size s)); [lia|].
  rewrite range_len_n.
  destruct (check_free_ok (bitmap s) (Z.to_nat n) start) as (b & Hchk & Hb);
    [lia | lia |].
  rewrite Hchk. simpl.
  assert (b = true) as ->.
  { apply Hb. intros k Hk. rewrite Hfree by lia. discriminate. }
  destruct (mark_ok 1 (Z.to_nat n) start (bitmap s)) as (bm & Hm & Hl & Hk);
    [lia | lia |].
  rewrite Hm. simpl.
  assert (Hk' : ∀ k : nat, bm !! k =
            if decide (start <= Z.of_nat k < start + n) then Some 1
            else bitmap s !! k).
  { intros k. rewrite Hk. repeat case_decide; try reflexivity; lia. }
  destruct (containing_extent 0 (disk_size s) (ranges (free_list s)) start n Hw Hn)
    as (e & Hin & H1 & H2).
  { intros i Hi. apply Hc; [lia|]. split; [lia|]. apply Hfree. exact Hi. }
  destruct (remove_range_ok start n (free_list s) 0 (disk_size s) Hw Hn)
    as (Hw' & Hc'); [by eauto|].
  destruct (Rep_Inv (disk_size s) bm (remove_range (free_list s) start n) (groups s))
    as (s' & Hu & -> & HI').
  { split; [lia|]. split; [|split; [lia|split; [exact Hw'|]]].
    - apply Forall_lookup. intros k x Hx. rewrite Hk' in Hx.
      case_decide; [right; congruence|].
      rewrite Forall_lookup in Hbits. eapply Hbits. exact Hx.
    - intros i Hi. rewrite Hc', <- (Hc i Hi). unfold is_free. rewrite Hk'.
      case_decide.
      + split; [intros [_ ?]; congruence | intros [_ ?]; lia].
      + split; [intros Hf; split; [exact Hf | lia] | tauto]. }
  rewrite Hu. simpl. eexists; split; [reflexivity|].
  split; [exact HI'|]. split; [reflexivity|]. split; [reflexivity | exact Hk'].
Qed.

Lemma deallocate_ok s start n :
  Inv s → 1 <= n → 0 <= start → start + n <= disk_size s →
  (∀ i, start <= i < start + n → bitmap s !! Z.to_nat i = Some 1) →
  ∃ s', deallocate s start n = Some (s', true) ∧ Inv s' ∧
        disk_size s' = disk_size s ∧
        free_list s' = insert_extent (free_list s) start n ∧
        ∀ k : nat, bitmap s' !! k =
          if decide (start <= Z.of_nat k < start + n) then Some 0
          else bitmap s !! k.
Proof.
  intros HI Hn Hs He Halloc.
  destruct (Inv_Rep s HI) as (Hlen & Hbits & Hpos & Hw & Hc).
  unfold deallocate. destruct (decide (start + n > disk_size s ∨ start < 0)); [lia|].
  rewrite range_len_n.
  destruct (mark_ok 0 (Z.to_nat n) start (bitmap s)) as (bm & Hm & Hl & Hk);
    [lia | lia |].
  rewrite Hm. simpl.
  assert (Hk' : ∀ k : nat, bm !! k =
            if decide (start <= Z.of_nat k < start + n) then Some 0
            else bitmap s !! k).
  { intros k. rewrite Hk. repeat case_decide; try reflexivity; lia. }
  destruct (insert_extent_ok start n (free_list s) 0 (disk_size s) Hw Hn Hs He)
    as (Hw' & Hc').
  { intros i Hi Hcov. apply Hc in Hcov; [|lia]. destruct Hcov as [_ Hcov].
    rewrite Halloc in Hcov by exact Hi. discriminate. }
  destruct (Rep_Inv (disk_size s) bm (insert_extent (free_list s) start n) (groups s))
    as (s' & Hu & -> & HI').
  { split; [lia|]. split; [|split; [lia|split; [exact Hw'|]]].
    - apply Forall_lookup. intros k x Hx. rewrite Hk' in Hx.
      case_decide; [left; congruence|].
      rewrite Forall_lookup in Hbits. eapply Hbits. exact Hx.
    - intros i Hi. rewrite Hc', <- (Hc i Hi). unfold is_free. rewrite Hk'.
      case_decide.
      + split; [intros _; right; lia | intros _; split; [lia | reflexivity]].
      + split; [intros Hf; left; exact Hf | intros [Hf|Hf]; [exact Hf | lia]]. }
  rewrite Hu. simpl. eexists; split; [reflexivity|].
  split; [exact HI'|]. split; [reflexivity|]. split; [reflexivity | exact Hk'].
Qed.

Lemma init_ok dsz :
  ∃ s0, init dsz = Some s0 ∧ disk_size s0 = dsz ∧ (0 < dsz → Inv s0).
Proof.
  unfold init.
  destruct (derive_groups_ok (replicate (Z.to_nat dsz) 0) dsz) as (gs & Hd & _).
  { by rewrite length_replicate. }
  destruct (decide (0 < dsz)) as [Hpos|Hneg].
  - destruct (Rep_Inv dsz (replicate (Z.to_nat dsz) 0) [FreeExtent.mk 0 dsz] [])
      as (s' & Hu & -> & HI').
    { split; [by rewrite length_replicate|].
      split; [apply Forall_replicate; by left|]. split; [lia|]. split.
      - simpl. lia.
      - intros i Hi. simpl. rewrite covered_cons, covered_nil. simpl.
        unfold is_free. rewrite lookup_replicate_2 by lia. intuition lia. }
    rewrite Hu. eexists; split; [reflexivity|]. split; [reflexivity|]. by intros _.
  - unfold update_groups. simpl. rewrite Hd. simpl.
    eexists; split; [reflexivity|]. split; [reflexivity | lia].
Qed.

Lemma valid_call_ok s c :
  Inv s → valid_call s c = true →
  ∃ s', do_call s c = Some (s', true) ∧ Inv s' ∧ disk_size s' = disk_size s.
Proof.
  intros HI Hv. pose proof (Inv_Rep s HI) as (Hlen & _).
  destruct c as [start n|start n]; simpl in Hv.
  - apply andb_true_iff in Hv. destruct Hv as [Hr Hb].
    apply bool_decide_eq_true in Hr. destruct Hr as (Hn & Hs & He).
    destruct (allocate_ok s start n HI Hn Hs He) as (s' & Ha & HI' & Hd & _ & _).
    { apply blocks_all_lookup; [exact Hb | lia | lia]. }
    exists s'. simpl. rewrite Ha. simpl. auto.
  - apply andb_true_iff in Hv. destruct Hv as [Hr Hb].
    apply bool_decide_eq_true in Hr. destruct Hr as (Hn & Hs & He).
    destruct (deallocate_ok s start n HI Hn Hs He) as (s' & Ha & HI' & Hd & _ & _).
    { apply blocks_all_lookup; [exact Hb | lia | lia]. }
    exists s'. simpl. rewrite Ha. auto.
Qed.

Lemma valid_calls_ok cs : ∀ s,
  Inv s → all_calls valid_call s cs = true →
  ∃ tr, run s cs = Some tr ∧ length tr = length cs ∧
        Forall (λ r, r.2 = true ∧ Inv r.1) tr.
Proof.
  induction cs as [|c cs IH]; intros s HI Hv.
  - exists []. simpl. auto.
  - simpl in Hv. apply andb_true_iff in Hv. destruct Hv as [Hc Hrest].
    destruct (valid_call_ok s c HI Hc) as (s' & Hdo & HI' & _).
    rewrite Hdo in Hrest. simpl in Hrest.
    destruct (IH s' HI' Hrest) as (tr & Hrun & Hlen & Hall).
    exists ((s', true) :: tr). simpl. rewrite Hdo. simpl. rewrite Hrun. simpl.
    split; [reflexivity|]. split; [by rewrite Hlen|].
    constructor; [by split | exact Hall].
Qed.

(** C1 (as amended): starting from a freshly constructed manager, every
    sequence of allocate calls meeting their preconditions and of
    deallocate calls over in-range, currently allocated blocks runs to
    completion, each call reports success, and the state after every call
    satisfies invariants 1-4 (and keeps one 0/1 flag per block). *)
Theorem invariant_preservation (dsz : Z) (cs : list call) :
  ∃ s0, init dsz = Some s0 ∧
        (all_calls valid_call s0 cs = true →
         ∃ tr, run s0 cs = Some tr ∧ length tr = length cs ∧
               Forall (λ r, r.2 = true ∧ Inv r.1) tr).
Proof.
  destruct (init_ok dsz) as (s0 & Hinit & Hd & HI).
  exists s0. split; [exact Hinit|]. intros Hv.
  destruct cs as [|c cs]; [exists []; simpl; auto|].
  apply valid_calls_ok; [|exact Hv]. apply HI.
  simpl in Hv. apply andb_true_iff in Hv. destruct Hv as [Hc _].
  assert (Hp : meets_preconditions s0 c = true ∨
               ∃ st n, c = Deallocate st n ∧
                 bool_decide (1 <= n ∧ 0 <= st ∧ st + n <= disk_size s0) = true).
  { destruct c; simpl in Hc; [by left|]. right.
    apply andb_true_iff in Hc. destruct Hc as [Hc _]. eauto. }
  destruct Hp as [Hp|(st & n & -> & Hp)].
  - destruct c; simpl in Hp.
    + apply andb_true_iff in Hp. destruct Hp as [Hp _].
      apply bool_decide_eq_true in Hp. lia.
    + apply bool_decide_eq_true in Hp. lia.
  - apply bool_decide_eq_true in Hp. lia.
Qed.

Lemma init_50 : init 50 = Some fresh50.
Proof. vm_compute. reflexivity. Qed.

Lemma fresh50_Inv : Inv fresh50.
Proof.
  destruct (init_ok 50) as (s0 & Hi & _ & HI).
  rewrite init_50 in Hi. injection Hi as <-. apply HI. lia.
Qed.

(** C1, counterexample: a deallocate call that meets every listed
    precondition (positive count, range inside the device) but targets
    blocks that are already free is accepted and leaves the overlapping
    extents [0:50) and [10:15) in the chain. *)
Lemma double_free_breaks_invariants :
  ∃ s1, init 50 = Some fresh50 ∧
        all_calls meets_preconditions fresh50 [Deallocate 10 5] = true ∧
        run fresh50 [Deallocate 10 5] = Some [(s1, true)] ∧
        extents s1 = [(0, 50); (10, 5)] ∧
        ¬ inv2 s1 ∧ ¬ inv3 s1 ∧ ¬ inv4 s1 ∧ ¬ Inv s1.
Proof.
  eexists. split; [exact init_50|]. split; [vm_compute; reflexivity|].
  split; [vm_compute; reflexivity|]. split; [vm_compute; reflexivity|].
  assert (H2 : ¬ inv2 (mkManager 50 (replicate 50 0)
                         [FreeExtent.mk 0 50; FreeExtent.mk 10 5] [(0, 50)])).
  { unfold inv2, extents. simpl. intros Hs.
    apply StronglySorted_inv in Hs. destruct Hs as [_ Hs].
    apply Forall_inv in Hs. unfold apart in Hs. simpl in Hs. lia. }
  split; [exact H2|]. split; [|split].
  - unfold inv3. vm_compute. discriminate.
  - unfold inv4. intros [_ Hg]. vm_compute in Hg. discriminate.
  - intros (_ & _ & Hs & _). exact (H2 Hs).
Qed.

(** Witness for C1: allocate [10:15), free it again, allocate [0:10). *)
Lemma invariant_preservation_witness :
  all_calls valid_call fresh50 [Allocate 10 5; Deallocate 10 5; Allocate 0 10] = true ∧
  ∃ tr, run fresh50 [Allocate 10 5; Deallocate 10 5; Allocate 0 10] = Some tr ∧
        Forall (λ r, r.2 = true ∧ Inv r.1) tr.
Proof.
  split; [vm_compute; reflexivity|].
  destruct (invariant_preservation 50 [Allocate 10 5; Deallocate 10 5; Allocate 0 10])
    as (s0 & Hi & H).
  rewrite init_50 in Hi. injection Hi as <-.
  destruct H as (tr & Hr & _ & HF); [vm_compute; reflexivity|].
  exists tr. split; [exact Hr | exact HF].
Defined.

(** ** Group derivation *)

(** C8: for every bitmap holding at least [disk_size] flags,
    [update_groups] returns, leaves the device size, the bitmap and the
    free list untouched, and sets [groups] to the maximal contiguous runs
    of free blocks of the device: the list is in ascending order of start
    (successive runs are separated by at least one block), and a pair
    [(start, length)] occurs in it iff it is a maximal free run. *)
Theorem update_groups_maximal_runs (s : HybridSpaceManager) :
  (Z.to_nat (disk_size s) ≤ length (bitmap s))%nat →
  ∃ s', update_groups s = Some s' ∧
        disk_size s' = disk_size s ∧ bitmap s' = bitmap s ∧
        free_list s' = free_list s ∧
        StronglySorted apart (groups s') ∧
        ∀ g, g ∈ groups s' ↔ maximal_free_run (bitmap s) (disk_size s) g.
Proof.
  intros Hlen.
  destruct (derive_groups_ok (bitmap s) (disk_size s) Hlen)
    as (gs & Hd & Hw & Hc & _).
  unfold update_groups. rewrite Hd. simpl.
  eexists; split; [reflexivity|]. simpl.
  split; [reflexivity|]. split; [reflexivity|]. split; [reflexivity|].
  split; [eapply wfl_sorted; exact Hw|].
  apply wfl_maximal_runs; assumption.
Qed.

(** Witness for C8: blocks 2 and 5 allocated on an 8-block device. *)
Lemma update_groups_maximal_runs_witness :
  let s := mkManager 8 [0; 0; 1; 0; 0; 1; 0; 0] [] [] in
  (Z.to_nat (disk_size s) ≤ length (bitmap s))%nat ∧
  ∃ s', update_groups s = Some s' ∧ groups s' = [(0, 2); (3, 2); (6, 2)] ∧
        ∀ g, g ∈ groups s' ↔ maximal_free_run (bitmap s) (disk_size s) g.
Proof.
  intros s. assert (Hlen : (Z.to_nat (disk_size s) ≤ length (bitmap s))%nat).
  { vm_compute. lia. }
  split; [exact Hlen|].
  destruct (update_groups_maximal_runs s Hlen) as (s' & Hu & _ & _ & _ & _ & Hm).
  exists s'. split; [exact Hu|]. split; [|exact Hm].
  vm_compute in Hu. injection Hu as <-. reflexivity.
Defined.

(** ** Failed calls *)

(** C4: a call of allocate or deallocate that returns failure returns
    the manager it was given: bitmap, free list, groups and size are the
    ones before the call. *)
Theorem failed_call_leaves_state (s s' : HybridSpaceManager) (start n : Z) :
  (∀ r, allocate s start n = Some (s', (false, r)) → s' = s) ∧
  (deallocate s start n = Some (s', false) → s' = s).
Proof.
  split.
  - intros r. unfold allocate. case_decide; [congruence|].
    destruct (check_free _ _ _) as [[|]|]; simpl; [|congruence|discriminate].
    destruct (mark _ _ _ _); simpl; [|discriminate].
    destruct (update_groups _); simpl; [|discriminate]. congruence.
  - unfold deallocate. case_decide; [congruence|].
    destruct (mark _ _ _ _); simpl; [|discriminate].
    destruct (update_groups _); simpl; discriminate.
Qed.

(** Witness for C4: the out-of-range requests (48, 5) on 50 blocks. *)
Lemma failed_call_leaves_state_witness :
  allocate fresh50 48 5 = Some (fresh50, (false, -1)) ∧
  deallocate fresh50 48 5 = Some (fresh50, false) ∧
  fresh50 = fresh50.
Proof.
  assert (Ha : allocate fresh50 48 5 = Some (fresh50, (false, -1)))
    by (vm_compute; reflexivity).
  assert (Hd : deallocate fresh50 48 5 = Some (fresh50, false))
    by (vm_compute; reflexivity).
  split; [exact Ha|]. split; [exact Hd|].
  exact (proj1 (failed_call_leaves_state fresh50 fresh50 48 5) (-1) Ha).
Defined.

(** ** Results of allocate and deallocate *)

Lemma update_groups_total s :
  (Z.to_nat (disk_size s) ≤ length (bitmap s))%nat →
  ∃ g, update_groups s = Some (mkManager (disk_size s) (bitmap s) (free_list s) g).
Proof.
  intros Hlen.
  destruct (derive_groups_ok (bitmap s) (disk_size s) Hlen) as (gs & Hd & _).
  exists gs. unfold update_groups. rewrite Hd. reflexivity.
Qed.

(** C2, counterexample: on a 50-block device the out-of-range request
    allocate(48, 5) and the occupied request allocate(2, 2) made after
    allocate(0, 5) return the very same value [(False, -1)]. *)
Lemma allocate_failures_indistinguishable :
  ∃ s1 r1 r2,
    init 50 = Some fresh50 ∧
    allocate fresh50 48 5 = Some (fresh50, r1) ∧
    allocate fresh50 0 5 = Some (s1, (true, 0)) ∧
    allocate s1 2 2 = Some (s1, r2) ∧
    r1 = (false, -1) ∧ r2 = (false, -1) ∧ ¬ r1 ≠ r2.
Proof.
  eexists _, _, _. split; [exact init_50|]. split; [vm_compute; reflexivity|].
  split; [vm_compute; reflexivity|]. split; [vm_compute; reflexivity|].
  split; [reflexivity|]. split; [reflexivity|]. intros H. by apply H.
Qed.

(** C2 (as amended): allocate fails when start is negative or start + n
    exceeds disk_size, and when the range is inside the device and one of
    its blocks is allocated; a failing allocate has one of these two
    causes, and whatever the cause the value returned is [(False, -1)], so
    the result does not tell which check failed. *)
Theorem allocate_failure_result (s : HybridSpaceManager) (start n : Z) :
  (start < 0 ∨ start + n > disk_size s →
   allocate s start n = Some (s, (false, -1))) ∧
  (disk_size s <= Z.of_nat (length (bitmap s)) →
   0 <= start → start + n <= disk_size s →
   (∃ i, start <= i < start + n ∧ bitmap s !! Z.to_nat i = Some 1) →
   allocate s start n = Some (s, (false, -1))) ∧
  (∀ s' r, allocate s start n = Some (s', (false, r)) →
     r = -1 ∧
     (start < 0 ∨ start + n > disk_size s ∨
      ∃ i, start <= i < start + n ∧ getitem (bitmap s) i = Some 1)).
Proof.
  split; [|split].
  - intros Hr. unfold allocate. case_decide; [reflexivity | tauto].
  - intros Hlen Hs He (i & Hi & Hb). unfold allocate.
    case_decide; [reflexivity|]. rewrite range_len_n.
    destruct (check_free_ok (bitmap s) (Z.to_nat n) start) as (b & Hc & Hiff);
      [lia | lia |].
    rewrite Hc. simpl. destruct b; [|reflexivity].
    exfalso. apply (proj1 Hiff eq_refl i); [lia | exact Hb].
  - intros s' r. unfold allocate. case_decide as Hr.
    + intros [= _ <-]. split; [reflexivity | tauto].
    + destruct (check_free _ _ _) as [[|]|] eqn:Hc; simpl; [| |discriminate].
      * destruct (mark _ _ _ _); simpl; [|discriminate].
        destruct (update_groups _); simpl; [|discriminate]. congruence.
      * intros [= _ <-]. split; [reflexivity|]. right. right.
        rewrite range_len_n in Hc.
        destruct (check_free_false _ _ _ Hc) as (k & Hk & Hg).
        exists k. split; [lia | exact Hg].
Qed.

(** Witness for C2: the two rejected requests of the counterexample. *)
Lemma allocate_failure_result_witness :
  let s1 := mkManager 50 (replicate 5 1 ++ replicate 45 0)
              [FreeExtent.mk 5 45] [(5, 45)] in
  (48 < 0 ∨ 48 + 5 > disk_size fresh50) ∧
  allocate fresh50 48 5 = Some (fresh50, (false, -1)) ∧
  (∃ i, 2 <= i < 2 + 2 ∧ bitmap s1 !! Z.to_nat i = Some 1) ∧
  allocate s1 2 2 = Some (s1, (false, -1)).
Proof.
  intros s1.
  assert (H1 : 48 < 0 ∨ 48 + 5 > disk_size fresh50) by (right; simpl; lia).
  assert (H2 : ∃ i, 2 <= i < 2 + 2 ∧ bitmap s1 !! Z.to_nat i = Some 1).
  { exists 2. split; [lia | reflexivity]. }
  split; [exact H1|].
  split; [exact (proj1 (allocate_failure_result fresh50 48 5) H1)|].
  split; [exact H2|].
  apply (proj1 (proj2 (allocate_failure_result s1 2 2))); [simpl; lia | lia | simpl; lia | exact H2].
Defined.

(** C3, counterexample: a zero count is not rejected, allocate(0, 0) and
    deallocate(0, 0) on a fresh 50-block device both report success. *)
Lemma zero_count_accepted :
  init 50 = Some fresh50 ∧
  allocate fresh50 0 0 = Some (fresh50, (true, 0)) ∧
  deallocate fresh50 0 0 = Some (fresh50, true).
Proof. split; [exact init_50|]. split; vm_compute; reflexivity. Qed.

(** C3 (as amended): there is no count check.  For n <= 0 the only check
    that can fail is the range check, which comes first: allocate and
    deallocate fail when start < 0 or start + n > disk_size, and report
    success (allocate returning start) otherwise. *)
Theorem nonpositive_count_not_rejected (s : HybridSpaceManager) (start n : Z) :
  n <= 0 → (Z.to_nat (disk_size s) ≤ length (bitmap s))%nat →
  (start < 0 ∨ start + n > disk_size s →
   allocate s start n = Some (s, (false, -1)) ∧
   deallocate s start n = Some (s, false)) ∧
  (0 <= start ∧ start + n <= disk_size s →
   (∃ s', allocate s start n = Some (s', (true, start))) ∧
   (∃ s', deallocate s start n = Some (s', true))).
Proof.
  intros Hn Hlen. split.
  - intros Hr. unfold allocate, deallocate.
    repeat case_decide; first [by split | tauto].
  - intros [Hs He]. unfold allocate, deallocate.
    repeat case_decide; try lia. rewrite range_len_n.
    replace (Z.to_nat n) with 0%nat by lia. simpl.
    destruct (update_groups_total
                (mkManager (disk_size s) (bitmap s)
                   (remove_range (free_list s) start n) (groups s)) Hlen)
      as (g1 & ->).
    destruct (update_groups_total
                (mkManager (disk_size s) (bitmap s)
                   (insert_extent (free_list s) start n) (groups s)) Hlen)
      as (g2 & ->).
    simpl. split; eexists; reflexivity.
Qed.

(** Witness for C3: counts 0 and -3 on a fresh 50-block device. *)
Lemma nonpositive_count_not_rejected_witness :
  -3 <= 0 ∧ (Z.to_nat (disk_size fresh50) ≤ length (bitmap fresh50))%nat ∧
  (0 <= 20 ∧ 20 + -3 <= disk_size fresh50) ∧
  (∃ s', allocate fresh50 20 (-3) = Some (s', (true, 20))) ∧
  (∃ s', deallocate fresh50 20 (-3) = Some (s', true)).
Proof.
  assert (H1 : -3 <= 0) by lia.
  assert (H2 : (Z.to_nat (disk_size fresh50) ≤ length (bitmap fresh50))%nat)
    by (vm_compute; lia).
  assert (H3 : 0 <= 20 ∧ 20 + -3 <= disk_size fresh50) by (simpl; lia).
  split; [exact H1|]. split; [exact H2|]. split; [exact H3|].
  exact (proj2 (nonpositive_count_not_rejected fresh50 20 (-3) H1 H2) H3).
Defined.

(** C10: for every manager whose bitmap holds its disk_size flags and
    every start with 0 <= start <= disk_size, allocate(start, 0) reports
    success with the requested start and leaves the bitmap as it was. *)
Theorem allocate_zero_count (s : HybridSpaceManager) (start : Z) :
  (Z.to_nat (disk_size s) ≤ length (bitmap s))%nat →
  0 <= start <= disk_size s →
  ∃ s', allocate s start 0 = Some (s', (true, start)) ∧ bitmap s' = bitmap s.
Proof.
  intros Hlen Hs. unfold allocate. case_decide; [lia|].
  rewrite range_len_n. simpl.
  destruct (update_groups_total
              (mkManager (disk_size s) (bitmap s)
                 (remove_range (free_list s) start 0) (groups s)) Hlen)
    as (g & ->).
  simpl. eexists; split; reflexivity.
Qed.

(** Witness for C10: a zero-count request in the middle of a free extent;
    the bitmap is untouched although the chain is split in two. *)
Lemma allocate_zero_count_witness :
  (Z.to_nat (disk_size fresh50) ≤ length (bitmap fresh50))%nat ∧
  0 <= 10 <= disk_size fresh50 ∧
  ∃ s', allocate fresh50 10 0 = Some (s', (true, 10)) ∧
        bitmap s' = bitmap fresh50 ∧ extents s' = [(0, 10); (10, 40)].
Proof.
  assert (H1 : (Z.to_nat (disk_size fresh50) ≤ length (bitmap fresh50))%nat)
    by (vm_compute; lia).
  assert (H2 : 0 <= 10 <= disk_size fresh50) by (simpl; lia).
  split; [exact H1|]. split; [exact H2|].
  destruct (allocate_zero_count fresh50 10 H1 H2) as (s' & Ha & Hb).
  exists s'. split; [exact Ha|]. split; [exact Hb|].
  vm_compute in Ha. injection Ha as <-. reflexivity.
Defined.

Lemma insert_walk_covers start n i current : ∀ prev,
  Forall (λ e, 0 <= FreeExtent.size e) current →
  (∀ p, prev = Some p → 0 <= FreeExtent.size p) →
  start <= i < start + n →
  covered (ranges (insert_walk prev current start n)) i.
Proof.
  induction current as [|[cs cz] next IH]; intros prev Hpos Hprev Hi.
  - simpl. unfold merge_prev. simpl. destruct prev as [[ps pz]|]; simpl.
    + specialize (Hprev _ eq_refl). simpl in Hprev. case_decide; simpl.
      * rewrite covered_cons. simpl. lia.
      * rewrite !covered_cons. simpl. lia.
    + rewrite covered_cons. simpl. lia.
  - apply Forall_cons in Hpos. destruct Hpos as [Hc Hnext]. simpl in Hc.
    simpl. destruct (decide (cs < start)).
    + assert (Hrec : covered (ranges (insert_walk (Some (FreeExtent.mk cs cz))
                                        next start n)) i).
      { apply IH; [exact Hnext | | exact Hi]. by intros p [= <-]. }
      destruct prev; [|exact Hrec]. simpl. apply covered_cons. by right.
    + unfold merge_next, merge_prev. simpl.
      destruct prev as [[ps pz]|]; simpl.
      * specialize (Hprev _ eq_refl). simpl in Hprev.
        repeat case_decide; simpl; rewrite !covered_cons; simpl; lia.
      * case_decide; simpl; rewrite !covered_cons; simpl; lia.
Qed.

(** C9: for every manager whose bitmap holds its disk_size flags and every
    in-range request with n >= 1, deallocate reports success whatever the
    flags of the targeted blocks are; the blocks are flagged free, the
    other flags are kept, and the chain is updated by the insert-and-merge
    walk, which never looks at the bitmap; when no extent of the chain has
    a negative length, the targeted blocks are covered by the resulting
    chain. *)
Theorem deallocate_never_checks_allocation (s : HybridSpaceManager) (start n : Z) :
  (Z.to_nat (disk_size s) ≤ length (bitmap s))%nat →
  1 <= n → 0 <= start → start + n <= disk_size s →
  ∃ s', deallocate s start n = Some (s', true) ∧
        (∀ k : nat, bitmap s' !! k =
           if decide (start <= Z.of_nat k < start + n) then Some 0
           else bitmap s !! k) ∧
        free_list s' = insert_extent (free_list s) start n ∧
        (Forall (λ e, 0 <= FreeExtent.size e) (free_list s) →
         ∀ i, start <= i < start + n → covered (extents s') i).
Proof.
  intros Hlen Hn Hs He. unfold deallocate. case_decide; [lia|].
  rewrite range_len_n.
  destruct (mark_ok 0 (Z.to_nat n) start (bitmap s)) as (bm & Hm & Hl & Hk);
    [lia | lia |].
  rewrite Hm. simpl.
  destruct (update_groups_total
              (mkManager (disk_size s) bm
                 (insert_extent (free_list s) start n) (groups s)))
    as (g & Hu); [simpl; lia|].
  rewrite Hu. simpl. eexists; split; [reflexivity|]. simpl.
  split; [|split; [reflexivity|]].
  - intros k. rewrite Hk. repeat case_decide; try reflexivity; lia.
  - intros Hpos i Hi. unfold extents. simpl. rewrite insert_extent_walk.
    apply insert_walk_covers; [exact Hpos | discriminate | exact Hi].
Qed.

(** Witness for C9: freeing the free blocks [10:15) of a fresh device
    succeeds and links a second extent for them. *)
Lemma deallocate_never_checks_allocation_witness :
  (Z.to_nat (disk_size fresh50) ≤ length (bitmap fresh50))%nat ∧
  1 <= 5 ∧ 0 <= 10 ∧ 10 + 5 <= disk_size fresh50 ∧
  ∃ s', deallocate fresh50 10 5 = Some (s', true) ∧
        extents s' = [(0, 50); (10, 5)].
Proof.
  assert (H1 : (Z.to_nat (disk_size fresh50) ≤ length (bitmap fresh50))%nat)
    by (vm_compute; lia).
  assert (H2 : 1 <= 5) by lia.
  assert (H3 : 0 <= 10) by lia.
  assert (H4 : 10 + 5 <= disk_size fresh50) by (simpl; lia).
  split; [exact H1|]. split; [exact H2|]. split; [exact H3|]. split; [exact H4|].
  destruct (deallocate_never_checks_allocation fresh50 10 5 H1 H2 H3 H4)
    as (s' & Hd & _ & Hf & _).
  exists s'. split; [exact Hd|]. unfold extents. rewrite Hf. reflexivity.
Defined.

(** ** Splitting *)

(** C6: on a fresh 50-block manager allocate(10, 5) succeeds and leaves
    the free extents [0:10) and [15:50); allocate(0, 10) and then
    allocate(15, 35) succeed as well and leave the free list empty. *)
Theorem split_then_exhaust :
  ∃ s0 s1 s2 s3,
    init 50 = Some s0 ∧
    allocate s0 10 5 = Some (s1, (true, 10)) ∧
    extents s1 = [(0, 10); (15, 35)] ∧
    allocate s1 0 10 = Some (s2, (true, 0)) ∧
    allocate s2 15 35 = Some (s3, (true, 15)) ∧
    free_list s3 = [].
Proof.
  eexists _, _, _, _. split; [vm_compute; reflexivity|].
  split; [vm_compute; reflexivity|]. split; [vm_compute; reflexivity|].
  split; [vm_compute; reflexivity|]. split; [vm_compute; reflexivity|].
  vm_compute. reflexivity.
Qed.

(** ** Bridging a gap between two extents *)

Lemma ranges_app l1 l2 : ranges (l1 ++ l2) = ranges l1 ++ ranges l2.
Proof. unfold ranges. apply List.map_app. Qed.

Lemma ranges_elem e fl :
  e ∈ fl → (FreeExtent.start e, FreeExtent.size e) ∈ ranges fl.
Proof.
  intros He. apply list_elem_of_In. unfold ranges.
  apply (List.in_map (λ e, (FreeExtent.start e, FreeExtent.size e))).
  by apply list_elem_of_In.
Qed.

Lemma ranges_inj l1 : ∀ l2, ranges l1 = ranges l2 → l1 = l2.
Proof.
  induction l1 as [|[a la] r IH]; intros [|[b lb] r']; simpl; try discriminate.
  - reflexivity.
  - intros [= -> -> Hr]. f_equal. by apply IH.
Qed.

(** Two extents of the chain with nothing but uncovered blocks between
    them are neighbours in the chain. *)
Lemma neighbours hi ea eb fl : ∀ lo,
  wfl lo hi (ranges fl) → ea ∈ fl → eb ∈ fl →
  FreeExtent.start ea + FreeExtent.size ea < FreeExtent.start eb →
  (∀ i, FreeExtent.start ea + FreeExtent.size ea <= i < FreeExtent.start eb →
        ¬ covered (ranges fl) i) →
  ∃ pre post, fl = pre ++ ea :: eb :: post.
Proof.
  induction fl as [|x r IH]; intros lo Hw Ha Hb Hlt Hgap.
  - by apply elem_of_nil in Ha.
  - simpl in Hw. destruct Hw as (H1 & H2 & H3 & H4).
    apply elem_of_cons in Ha. apply elem_of_cons in Hb.
    destruct Ha as [->|Ha], Hb as [->|Hb].
    + lia.
    + destruct r as [|y r']; [by apply elem_of_nil in Hb|].
      apply elem_of_cons in Hb. destruct Hb as [->|Hb].
      * exists [], r'. reflexivity.
      * exfalso. simpl in H4. destruct H4 as (G1 & G2 & G3 & G4).
        pose proof (wfl_elem _ _ _ _ G4 (ranges_elem _ _ Hb)) as Hb'. simpl in Hb'.
        apply (Hgap (FreeExtent.start y)); [lia|].
        simpl. rewrite !covered_cons. simpl. lia.
    + exfalso.
      pose proof (wfl_elem _ _ _ _ H4 (ranges_elem _ _ Ha)) as Ha'. simpl in Ha'.
      lia.
    + destruct (IH _ H4 Ha Hb Hlt) as (pre & post & ->).
      * intros i Hi Hc. apply (Hgap i Hi). simpl. apply covered_cons. by right.
      * exists (x :: pre), post. reflexivity.
Qed.

Lemma wfl_app_before lo hi l1 g l2 :
  wfl lo hi (l1 ++ g :: l2) → Forall (λ x, x.1 + x.2 < g.1) l1.
Proof.
  revert lo. induction l1 as [|x r IH]; intros lo Hw; [constructor|].
  simpl in Hw. destruct Hw as (H1 & H2 & H3 & H4). constructor.
  - assert (Hg : g ∈ r ++ g :: l2) by (apply elem_of_app; right; left).
    pose proof (wfl_elem _ _ _ _ H4 Hg). lia.
  - eapply IH. exact H4.
Qed.

(** The walk of deallocate on a gap that exactly bridges two neighbours:
    both merges apply and one extent replaces the two. *)
Lemma insert_walk_bridge a la b lb post start n pre : ∀ prev,
  Forall (λ e, FreeExtent.start e < start) pre →
  a < start → a + la = start → start + n = b → 0 <= n →
  insert_walk prev (pre ++ FreeExtent.mk a la :: FreeExtent.mk b lb :: post) start n
  = match prev with Some p => [p] | None => [] end
    ++ pre ++ FreeExtent.mk a (b + lb - a) :: post.
Proof.
  intros prev Hpre Ha Hs Hb Hn. revert prev.
  induction Hpre as [|x pre Hx _ IH]; intros prev.
  - simpl. destruct (decide (a < start)); [|lia].
    destruct (decide (b < start)); [lia|].
    unfold merge_next, merge_prev. simpl.
    destruct (decide (b = start + n)); [|lia]. simpl.
    destruct (decide (a + la = start)); [|lia].
    replace (la + (n + lb)) with (b + lb - a) by lia. by destruct prev.
  - simpl in *. destruct (decide (FreeExtent.start x < start)); [|lia].
    rewrite (IH (Some x)). by destruct prev.
Qed.

(** C5 (as amended): in a state satisfying the invariants whose chain holds the
    extents [a : a+la) and [b : b+lb) with a + la < b and every block of
    the gap [a+la : b) allocated, deallocating exactly that gap succeeds;
    the two extents are neighbours in the chain, and in the resulting
    chain the single extent [a : b+lb) stands in their place, everything
    before and after them being kept. *)
Theorem bridge_merges (s : HybridSpaceManager) (a la b lb : Z) :
  Inv s →
  FreeExtent.mk a la ∈ free_list s → FreeExtent.mk b lb ∈ free_list s →
  a + la < b →
  (∀ i, a + la <= i < b → bitmap s !! Z.to_nat i = Some 1) →
  ∃ s' pre post,
    deallocate s (a + la) (b - (a + la)) = Some (s', true) ∧
    free_list s = pre ++ FreeExtent.mk a la :: FreeExtent.mk b lb :: post ∧
    free_list s' = pre ++ FreeExtent.mk a (b + lb - a) :: post.
Proof.
  intros HI Ha Hb Hlt Hgap.
  destruct (Inv_Rep s HI) as (Hlen & Hbits & Hpos & Hw & Hc).
  pose proof (wfl_elem _ _ _ _ Hw (ranges_elem _ _ Ha)) as Ha'.
  pose proof (wfl_elem _ _ _ _ Hw (ranges_elem _ _ Hb)) as Hb'.
  simpl in Ha', Hb'.
  destruct (neighbours (disk_size s) (FreeExtent.mk a la) (FreeExtent.mk b lb)
              (free_list s) 0 Hw Ha Hb) as (pre & post & Hfl).
  { simpl. exact Hlt. }
  { simpl. intros i Hi Hcov. apply Hc in Hcov; [|lia].
    destruct Hcov as [_ Hcov]. rewrite Hgap in Hcov by exact Hi. discriminate. }
  destruct (deallocate_ok s (a + la) (b - (a + la)) HI) as (s' & Hd & _ & _ & Hf & _);
    [lia | lia | lia | |].
  { intros i Hi. apply Hgap. lia. }
  exists s', pre, post. split; [exact Hd|]. split; [exact Hfl|].
  rewrite Hf, insert_extent_walk, Hfl.
  rewrite (insert_walk_bridge a la b lb post (a + la) (b - (a + la)) pre None);
    [reflexivity | | lia | lia | lia | lia].
  assert (Hw2 := Hw). rewrite Hfl, ranges_app in Hw2. simpl in Hw2.
  apply wfl_app_before in Hw2. rewrite List.Forall_forall in Hw2.
  apply Forall_forall. intros e He.
  specialize (Hw2 _ (proj1 (list_elem_of_In _ _) (ranges_elem _ _ He))).
  simpl in Hw2.
  assert (He' : e ∈ free_list s) by (rewrite Hfl; apply elem_of_app; by left).
  pose proof (wfl_elem _ _ _ _ Hw (ranges_elem _ _ He')) as Hz. simpl in Hz. lia.
Qed.

Lemma gap15_reached :
  ∃ s0, init 15 = Some s0 ∧ allocate s0 5 5 = Some (gap15, (true, 5)).
Proof. eexists. split; vm_compute; reflexivity. Qed.

Lemma gap15_Inv : Inv gap15.
Proof.
  destruct gap15_reached as (s0 & Hi & Ha).
  destruct (init_ok 15) as (s0' & Hi' & _ & HI).
  rewrite Hi in Hi'. injection Hi' as <-.
  destruct (allocate_ok s0 5 5) as (s' & Ha' & HI' & _); [apply HI; lia | lia | lia | | |].
  - vm_compute in Hi. injection Hi as <-. simpl. lia.
  - vm_compute in Hi. injection Hi as <-. simpl. intros i Hi.
    apply (lookup_replicate_2 15 0). lia.
  - rewrite Ha in Ha'. injection Ha' as <-. exact HI'.
Qed.

(** Witness for C5, the example of the specification: with [0:5) and [10:15) free
    on a 15-block device, deallocate(5, 5) leaves the single extent [0:15). *)
Lemma bridge_merges_witness :
  Inv gap15 ∧ extents gap15 = [(0, 5); (10, 5)] ∧
  (∀ i, 0 + 5 <= i < 10 → bitmap gap15 !! Z.to_nat i = Some 1) ∧
  ∃ s', deallocate gap15 5 5 = Some (s', true) ∧ extents s' = [(0, 15)].
Proof.
  assert (Hgap : ∀ i, 0 + 5 <= i < 10 → bitmap gap15 !! Z.to_nat i = Some 1).
  { intros i Hi.
    assert (Hcases : i = 5 ∨ i = 6 ∨ i = 7 ∨ i = 8 ∨ i = 9) by lia.
    destruct Hcases as [->|[->|[->|[->| ->]]]]; reflexivity. }
  split; [exact gap15_Inv|]. split; [reflexivity|]. split; [exact Hgap|].
  destruct (bridge_merges gap15 0 5 10 5 gap15_Inv) as (s' & pre & post & Hd & _ & _).
  - simpl. left.
  - simpl. right. left.
  - lia.
  - exact Hgap.
  - exists s'. split; [exact Hd|].
    vm_compute in Hd. injection Hd as <-. reflexivity.
Defined.

(** ** Allocate then deallocate *)

(** C7 (as amended): in a state satisfying the invariants, when
    allocate(start, n) with n >= 1 succeeds, deallocate(start, n) called
    right after succeeds and restores the bitmap, and the chain holds the
    same extents (same starts and lengths, in the same order) as before
    the allocation; the groups are restored too. *)
Theorem allocate_deallocate_round_trip
    (s s1 : HybridSpaceManager) (start n r : Z) :
  Inv s → 1 <= n →
  allocate s start n = Some (s1, (true, r)) →
  ∃ s2, deallocate s1 start n = Some (s2, true) ∧
        bitmap s2 = bitmap s ∧ free_list s2 = free_list s ∧
        groups s2 = groups s.
Proof.
  intros HI Hn Ha.
  destruct (Inv_Rep s HI) as (Hlen & Hbits & Hpos & Hw & Hc).
  assert (Hrange : 0 <= start ∧ start + n <= disk_size s).
  { unfold allocate in Ha. case_decide; [congruence | lia]. }
  destruct Hrange as [Hs He].
  assert (Hfree : ∀ i, start <= i < start + n → bitmap s !! Z.to_nat i = Some 0).
  { unfold allocate in Ha. case_decide; [congruence|].
    rewrite range_len_n in Ha.
    destruct (check_free_ok (bitmap s) (Z.to_nat n) start) as (b & Hchk & Hb);
      [lia | lia |].
    rewrite Hchk in Ha. simpl in Ha. destruct b; [|congruence].
    intros i Hi. destruct (lookup_in_range (bitmap s) i) as [x Hx]; [lia|].
    rewrite Forall_lookup in Hbits. destruct (Hbits _ _ Hx) as [-> | ->]; [exact Hx|].
    exfalso. apply (proj1 Hb eq_refl i); [lia | exact Hx]. }
  destruct (allocate_ok s start n HI Hn Hs He Hfree)
    as (s' & Ha' & HI1 & Hd1 & _ & Hb1).
  rewrite Ha in Ha'. injection Ha' as <- ->.
  destruct (deallocate_ok s1 start n HI1 Hn Hs) as (s2 & Hd & HI2 & Hd2 & _ & Hb2).
  { lia. }
  { intros i Hi. rewrite Hb1. case_decide; [reflexivity | lia]. }
  exists s2. split; [exact Hd|].
  assert (Hbm : bitmap s2 = bitmap s).
  { apply list_eq. intros k. rewrite Hb2, Hb1. case_decide as Hk; [|reflexivity].
    symmetry. rewrite <- (Hfree (Z.of_nat k) Hk). f_equal. lia. }
  destruct (Inv_Rep s2 HI2) as (_ & _ & _ & Hw2 & Hc2).
  rewrite Hd2, Hd1 in Hw2, Hc2. rewrite Hbm in Hc2.
  assert (Hfl : free_list s2 = free_list s).
  { apply ranges_inj. apply (wfl_unique _ _ 0 (disk_size s) Hw2 Hw).
    intros i Hi. rewrite <- (Hc2 i Hi). apply Hc. exact Hi. }
  split; [exact Hbm|]. split; [exact Hfl|].
  destruct HI as (_ & _ & _ & _ & _ & Hg). destruct HI2 as (_ & _ & _ & _ & _ & Hg2).
  rewrite Hg, Hg2. unfold extents. by rewrite Hfl.
Qed.

Lemma hole50_reached : allocate fresh50 10 5 = Some (hole50, (true, 10)).
Proof. vm_compute. reflexivity. Qed.

Lemma hole50_reachable : reachable hole50.
Proof.
  apply (reach_call fresh50 (Allocate 10 5) (hole50, true));
    [exact (reach_init 50 fresh50 init_50) | vm_compute; reflexivity].
Qed.

Lemma hole50_Inv : Inv hole50.
Proof.
  destruct (allocate_ok fresh50 10 5 fresh50_Inv) as (s' & Ha & HI & _);
    [lia | simpl; lia | simpl; lia | |].
  - intros i Hi. apply (lookup_replicate_2 50 0). lia.
  - rewrite hole50_reached in Ha. injection Ha as <-. exact HI.
Qed.

(** Witness for C7: allocating and freeing [20:25) next to the hole. *)
Lemma allocate_deallocate_round_trip_witness :
  Inv hole50 ∧ 1 <= 5 ∧
  allocate hole50 20 5 = Some (two_holes50, (true, 20)) ∧
  ∃ s2, deallocate two_holes50 20 5 = Some (s2, true) ∧
        bitmap s2 = bitmap hole50 ∧ free_list s2 = free_list hole50.
Proof.
  assert (Hn : 1 <= 5) by lia.
  assert (Ha : allocate hole50 20 5 = Some (two_holes50, (true, 20)))
    by (vm_compute; reflexivity).
  split; [exact hole50_Inv|]. split; [exact Hn|]. split; [exact Ha|].
  destruct (allocate_deallocate_round_trip hole50 two_holes50 20 5 20
              hole50_Inv Hn Ha) as (s2 & Hd & Hb & Hf & _).
  exists s2. split; [exact Hd|]. split; [exact Hb | exact Hf].
Defined.

(** C7, counterexample: allocate also succeeds for a negative count, and
    then the round trip fails.  On a 50-block device with [10:15)
    allocated, allocate(15, -3) succeeds; deallocate(15, -3) succeeds too
    and leaves the chain [0:10), [12:50), (15, -3), which covers the
    allocated blocks 12..14 that no extent covered before. *)
Lemma round_trip_fails_for_negative_count :
  ∃ s1 s2,
    Inv hole50 ∧ reachable hole50 ∧
    allocate hole50 15 (-3) = Some (s1, (true, 15)) ∧
    deallocate s1 15 (-3) = Some (s2, true) ∧
    extents hole50 = [(0, 10); (15, 35)] ∧
    extents s2 = [(0, 10); (12, 38); (15, -3)] ∧
    free_list s2 ≠ free_list hole50 ∧
    covered (extents s2) 12 ∧ ¬ covered (extents hole50) 12.
Proof.
  eexists _, _. split; [exact hole50_Inv|]. split; [exact hole50_reachable|].
  split; [vm_compute; reflexivity|]. split; [vm_compute; reflexivity|].
  split; [reflexivity|]. split; [reflexivity|]. split; [discriminate|].
  split.
  - unfold extents. simpl. rewrite !covered_cons. simpl. lia.
  - unfold extents. simpl. rewrite !covered_cons, covered_nil. simpl. lia.
Qed.

(** ** Reachable states *)

Lemma mark_length v cnt : ∀ i bm bm',
  mark bm v i cnt = Some bm' → length bm' = length bm.
Proof.
  induction cnt as [|c IH]; intros i bm bm' Hm; simpl in Hm.
  - by injection Hm as <-.
  - unfold setitem in Hm. destruct (py_index bm i) as [k|]; [|discriminate].
    simpl in Hm. apply IH in Hm. by rewrite Hm, length_insert.
Qed.

Lemma update_groups_fields s s' :
  update_groups s = Some s' →
  disk_size s' = disk_size s ∧ bitmap s' = bitmap s ∧ free_list s' = free_list s.
Proof.
  unfold update_groups. destruct (derive_groups _ _); [|discriminate].
  simpl. by intros [= <-].
Qed.

(** The bitmap keeps one entry per block in every reachable state. *)
Lemma reachable_length s :
  reachable s → length (bitmap s) = Z.to_nat (disk_size s).
Proof.
  induction 1 as [dsz s Hi|s c r _ IH Hc].
  - unfold init in Hi. apply update_groups_fields in Hi.
    destruct Hi as (-> & -> & _). simpl. apply length_replicate.
  - destruct c as [start n|start n]; simpl in Hc.
    + unfold allocate in Hc. case_decide; [by injection Hc as <-|].
      destruct (check_free _ _ _) as [[|]|]; simpl in Hc;
        [| by injection Hc as <- | discriminate].
      destruct (mark _ _ _ _) as [bm|] eqn:Hm; simpl in Hc; [|discriminate].
      destruct (update_groups _) as [s'|] eqn:Hu; simpl in Hc; [|discriminate].
      injection Hc as <-. simpl. apply update_groups_fields in Hu.
      destruct Hu as (-> & -> & _). simpl. apply mark_length in Hm. congruence.
    + unfold deallocate in Hc. case_decide; [by injection Hc as <-|].
      destruct (mark _ _ _ _) as [bm|] eqn:Hm; simpl in Hc; [|discriminate].
      destruct (update_groups _) as [s'|] eqn:Hu; simpl in Hc; [|discriminate].
      injection Hc as <-. simpl. apply update_groups_fields in Hu.
      destruct Hu as (-> & -> & _). simpl. apply mark_length in Hm. congruence.
Qed.

Lemma stray50_reached :
  run fresh50 [Allocate 10 5; Deallocate 12 0]
  = Some [(hole50, true); (stray50, true)].
Proof. vm_compute. reflexivity. Qed.

Lemma stray50_reachable : reachable stray50.
Proof.
  apply (reach_call hole50 (Deallocate 12 0) (stray50, true));
    [exact hole50_reachable | vm_compute; reflexivity].
Qed.

(** C5, counterexample: a state reached through an accepted zero-count
    call.  Its chain holds the disjoint, non-adjacent extents [0:10) and
    [15:50), every block of the gap [10:15) is allocated, and
    deallocate(10, 5) bridges the gap exactly; yet the walk stops at the
    empty extent (12, 0), only the predecessor is merged, and the chain
    becomes [0:15), (12, 0), [15:50): no extent [0:50) results. *)
Lemma bridge_fails_on_stray_extent :
  ∃ s',
    reachable stray50 ∧
    FreeExtent.mk 0 10 ∈ free_list stray50 ∧
    FreeExtent.mk 15 35 ∈ free_list stray50 ∧
    0 + 10 < 15 ∧
    (∀ i, 0 + 10 <= i < 15 → bitmap stray50 !! Z.to_nat i = Some 1) ∧
    deallocate stray50 (0 + 10) (15 - (0 + 10)) = Some (s', true) ∧
    extents s' = [(0, 15); (12, 0); (15, 35)] ∧
    FreeExtent.mk 0 (15 + 35 - 0) ∉ free_list s'.
Proof.
  eexists. split; [exact stray50_reachable|].
  split; [left|]. split; [right; right; left|]. split; [lia|]. split.
  { intros i Hi.
    assert (Hcases : i = 10 ∨ i = 11 ∨ i = 12 ∨ i = 13 ∨ i = 14) by lia.
    destruct Hcases as [->|[->|[->|[->| ->]]]]; reflexivity. }
  split; [vm_compute; reflexivity|]. split; [reflexivity|].
  simpl. intros Hin. repeat (apply elem_of_cons in Hin; destruct Hin as [Hin|Hin];
    [discriminate Hin|]). by apply elem_of_nil in Hin.
Qed.

(** With a zero count the round trip restores the bitmap but can leave an
    empty extent in the chain: on the device with [10:15) allocated,
    allocate(12, 0) then deallocate(12, 0) links (12, 0). *)
Lemma round_trip_zero_count_links_empty_extent :
  allocate hole50 12 0 = Some (hole50, (true, 12)) ∧
  deallocate hole50 12 0 = Some (stray50, true) ∧
  bitmap stray50 = bitmap hole50 ∧ free_list stray50 ≠ free_list hole50.
Proof.
  split; [vm_compute; reflexivity|]. split; [vm_compute; reflexivity|].
  split; [reflexivity | discriminate].
Qed.

(** ** What holds in every reachable state *)

Lemma mark_Forall (P : Z → Prop) v cnt : ∀ i bm bm',
  P v → Forall P bm → mark bm v i cnt = Some bm' → Forall P bm'.
Proof.
  induction cnt as [|c IH]; intros i bm bm' Hv Hbm Hm; simpl in Hm.
  - by injection Hm as <-.
  - unfold setitem in Hm. destruct (py_index bm i) as [k|]; [|discriminate].
    simpl in Hm. eapply IH; [exact Hv | | exact Hm].
    by apply Forall_insert.
Qed.

Lemma update_groups_groups s s' :
  update_groups s = Some s' →
  derive_groups (bitmap s') (disk_size s') = Some (groups s').
Proof.
  unfold update_groups. destruct (derive_groups _ _) as [g|] eqn:Hd; [|discriminate].
  simpl. intros [= <-]. simpl. exact Hd.
Qed.

(** The two results a call can have: the manager it was given, or a
    manager rebuilt by [update_groups] around a bitmap written by [mark]. *)
Lemma do_call_cases s c r :
  do_call s c = Some r →
  fst r = s ∨
  ∃ v i cnt bm fl,
    (v = 0 ∨ v = 1) ∧ mark (bitmap s) v i cnt = Some bm ∧
    update_groups (mkManager (disk_size s) bm fl (groups s)) = Some (fst r).
Proof.
  destruct c as [start n|start n]; simpl; intros Hc.
  - unfold allocate in Hc. case_decide; [left; by injection Hc as <-|].
    destruct (check_free _ _ _) as [[|]|]; simpl in Hc;
      [| left; by injection Hc as <- | discriminate].
    destruct (mark _ _ _ _) as [bm|] eqn:Hm; simpl in Hc; [|discriminate].
    destruct (update_groups _) as [s'|] eqn:Hu; simpl in Hc; [|discriminate].
    injection Hc as <-. right. simpl. eauto 10.
  - unfold deallocate in Hc. case_decide; [left; by injection Hc as <-|].
    destruct (mark _ _ _ _) as [bm|] eqn:Hm; simpl in Hc; [|discriminate].
    destruct (update_groups _) as [s'|] eqn:Hu; simpl in Hc; [|discriminate].
    injection Hc as <-. right. simpl. eauto 10.
Qed.

Lemma reachable_bits s :
  reachable s → Forall (λ b, b = 0 ∨ b = 1) (bitmap s).
Proof.
  induction 1 as [dsz s Hi|s c r _ IH Hc].
  - unfold init in Hi. apply update_groups_fields in Hi.
    destruct Hi as (_ & -> & _). simpl. apply Forall_replicate. by left.
  - destruct (do_call_cases _ _ _ Hc) as [->|(v & i & cnt & bm & fl & Hv & Hm & Hu)];
      [exact IH|].
    apply update_groups_fields in Hu. destruct Hu as (_ & -> & _). simpl.
    eapply (mark_Forall (λ b, b = 0 ∨ b = 1)); [exact Hv | exact IH | exact Hm].
Qed.

Lemma reachable_groups s :
  reachable s → derive_groups (bitmap s) (disk_size s) = Some (groups s).
Proof.
  induction 1 as [dsz s Hi|s c r _ IH Hc].
  - unfold init in Hi. by apply update_groups_groups in Hi.
  - destruct (do_call_cases _ _ _ Hc) as [->|(v & i & cnt & bm & fl & _ & _ & Hu)];
      [exact IH|].
    by apply update_groups_groups in Hu.
Qed.

(** X1: in every state the manager can reach, whatever the arguments of
    the calls made so far (rejected requests, double frees, zero or
    negative counts included), [groups] is in ascending separated order
    and holds exactly the maximal runs of free blocks of the bitmap. *)
Theorem reachable_groups_are_maximal_runs (s : HybridSpaceManager) :
  reachable s →
  StronglySorted apart (groups s) ∧
  ∀ g, g ∈ groups s ↔ maximal_free_run (bitmap s) (disk_size s) g.
Proof.
  intros Hr. pose proof (reachable_length s Hr) as Hlen.
  destruct (derive_groups_ok (bitmap s) (disk_size s)) as (gs & Hd & Hw & Hc & _);
    [lia|].
  rewrite (reachable_groups s Hr) in Hd. injection Hd as <-.
  split; [eapply wfl_sorted; exact Hw|]. by apply wfl_maximal_runs.
Qed.

(** Witness for X1: the state with the stray empty extent in its chain. *)
Lemma reachable_groups_are_maximal_runs_witness :
  reachable stray50 ∧ extents stray50 = [(0, 10); (12, 0); (15, 35)] ∧
  groups stray50 = [(0, 10); (15, 35)] ∧
  ∀ g, g ∈ groups stray50 ↔ maximal_free_run (bitmap stray50) (disk_size stray50) g.
Proof.
  split; [exact stray50_reachable|]. split; [reflexivity|]. split; [reflexivity|].
  exact (proj2 (reachable_groups_are_maximal_runs stray50 stray50_reachable)).
Defined.

(** X2: in every reachable state each flag of the bitmap is 0 or 1 and
    there is one flag per block, so the two counts shown in the info panel,
    [bitmap.count(0)] and [bitmap.count(1)], add up to the device size. *)
Theorem reachable_counts_add_up (s : HybridSpaceManager) :
  reachable s →
  Forall (λ b, b = 0 ∨ b = 1) (bitmap s) ∧
  count_free (bitmap s) + count_allocated (bitmap s) = Z.max 0 (disk_size s).
Proof.
  intros Hr. pose proof (reachable_bits s Hr) as Hb. split; [exact Hb|].
  rewrite (count_free_allocated _ Hb), (reachable_length s Hr). lia.
Qed.

(** Witness for X2: after a double free on a fresh 50-block device. *)
Lemma reachable_counts_add_up_witness :
  ∃ s, do_call fresh50 (Deallocate 10 5) = Some (s, true) ∧ reachable s ∧
       count_free (bitmap s) + count_allocated (bitmap s) = Z.max 0 (disk_size s).
Proof.
  destruct (do_call fresh50 (Deallocate 10 5)) as [[s b]|] eqn:Hc;
    [|vm_compute in Hc; discriminate].
  assert (Hb : b = true) by (vm_compute in Hc; congruence). subst b.
  exists s. split; [reflexivity|].
  assert (Hr : reachable s).
  { exact (reach_call fresh50 (Deallocate 10 5) (s, true)
             (reach_init 50 fresh50 init_50) Hc). }
  split; [exact Hr|]. exact (proj2 (reachable_counts_add_up s Hr)).
Defined.

(** ** Bookkeeping of the chain, in any state *)

Lemma remove_range_length fl start n :
  length (remove_range fl start n) = length fl ∨
  S (length (remove_range fl start n)) = length fl ∨
  length (remove_range fl start n) = S (length fl).
Proof.
  induction fl as [|[cs cz] next IH]; simpl; [by left|].
  repeat case_decide; simpl; lia.
Qed.

Lemma insert_walk_length start n current : ∀ prev,
  let before := (match prev with Some _ => 1 | None => 0 end + length current)%nat in
  let after := length (insert_walk prev current start n) in
  after = before ∨ S after = before ∨ after = S before.
Proof.
  induction current as [|[cs cz] next IH]; intros prev; simpl.
  - unfold merge_prev. destruct prev; simpl; [|tauto]. case_decide; simpl; tauto.
  - destruct (decide (cs < start)).
    + specialize (IH (Some (FreeExtent.mk cs cz))). simpl in IH.
      destruct prev; simpl; [|lia]. lia.
    + unfold merge_next, merge_prev. simpl.
      destruct prev; repeat case_decide; simpl; lia.
Qed.

(** X3: a call of allocate or deallocate, whatever its arguments and the
    state, changes the number of extents of the chain by at most one
    (allocate removes, keeps, trims or splits one extent; deallocate links
    one extent and merges it with at most its two neighbours). *)
Theorem chain_length_changes_by_at_most_one
    (s s' : HybridSpaceManager) (c : call) (ok : bool) :
  do_call s c = Some (s', ok) →
  length (free_list s') = length (free_list s) ∨
  S (length (free_list s')) = length (free_list s) ∨
  length (free_list s') = S (length (free_list s)).
Proof.
  destruct c as [start n|start n]; simpl; intros Hc.
  - unfold allocate in Hc. case_decide; [left; by injection Hc as <-|].
    destruct (check_free _ _ _) as [[|]|]; simpl in Hc;
      [| left; by injection Hc as <- | discriminate].
    destruct (mark _ _ _ _) as [bm|]; simpl in Hc; [|discriminate].
    destruct (update_groups _) as [s1|] eqn:Hu; simpl in Hc; [|discriminate].
    injection Hc as <- _. apply update_groups_fields in Hu.
    destruct Hu as (_ & _ & ->). simpl. apply remove_range_length.
  - unfold deallocate in Hc. case_decide; [left; by injection Hc as <-|].
    destruct (mark _ _ _ _) as [bm|]; simpl in Hc; [|discriminate].
    destruct (update_groups _) as [s1|] eqn:Hu; simpl in Hc; [|discriminate].
    injection Hc as <- _. apply update_groups_fields in Hu.
    destruct Hu as (_ & _ & ->). simpl. rewrite insert_extent_walk.
    apply (insert_walk_length start n (free_list s) None).
Qed.

(** Witness for X3: an interior allocation splits one extent in two. *)
Lemma chain_length_changes_by_at_most_one_witness :
  do_call fresh50 (Allocate 10 5) = Some (hole50, true) ∧
  length (free_list fresh50) = 1%nat ∧ length (free_list hole50) = 2%nat ∧
  (length (free_list hole50) = length (free_list fresh50) ∨
   S (length (free_list hole50)) = length (free_list fresh50) ∨
   length (free_list hole50) = S (length (free_list fresh50))).
Proof.
  assert (Hc : do_call fresh50 (Allocate 10 5) = Some (hole50, true))
    by (vm_compute; reflexivity).
  split; [exact Hc|]. split; [reflexivity|]. split; [reflexivity|].
  exact (chain_length_changes_by_at_most_one fresh50 hole50 (Allocate 10 5) true Hc).
Defined.

Lemma sum_len_remove_range fl start n :
  sum_len (ranges (remove_range fl start n)) = sum_len (ranges fl) - n ∨
  (remove_range fl start n = fl ∧
   Forall (λ e, ¬ (FreeExtent.start e <= start ∧
                   FreeExtent.start e + FreeExtent.size e >= start + n)) fl).
Proof.
  induction fl as [|[cs cz] next IH]; simpl; [right; by split|].
  destruct (decide (cs <= start ∧ cs + cz >= start + n)) as [Hin|Hout].
  - left. unfold sum_len. repeat case_decide; simpl; lia.
  - destruct IH as [IH|[IH Hall]].
    + left. unfold sum_len in *. simpl. lia.
    + right. split; [by rewrite IH|]. constructor; [exact Hout | exact Hall].
Qed.

Lemma sum_len_insert_walk start n current : ∀ prev,
  sum_len (ranges (insert_walk prev current start n))
  = match prev with Some p => FreeExtent.size p | None => 0 end
    + sum_len (ranges current) + n.
Proof.
  induction current as [|[cs cz] next IH]; intros prev; simpl.
  - unfold merge_prev, sum_len. destruct prev; simpl; [|lia].
    case_decide; simpl; lia.
  - destruct (decide (cs < start)).
    + specialize (IH (Some (FreeExtent.mk cs cz))). simpl in IH.
      unfold sum_len in *. destruct prev; simpl; lia.
    + unfold merge_next, merge_prev, sum_len.
      destruct prev; simpl; repeat case_decide; simpl; lia.
Qed.



(** X5: when allocate(start, n) succeeds, in any state whose bitmap holds
    its disk_size flags, it returns start, keeps disk_size, has met no
    block flagged 1 in [start, start+n), and flags exactly the blocks of
    that range, every other flag being kept. *)
Theorem allocate_marks_exactly_the_range
    (s s' : HybridSpaceManager) (start n r : Z) :
  (Z.to_nat (disk_size s) ≤ length (bitmap s))%nat →
  allocate s start n = Some (s', (true, r)) →
  r = start ∧ disk_size s' = disk_size s ∧
  0 <= start ∧ start + n <= disk_size s ∧
  (∀ i, start <= i < start + n → bitmap s !! Z.to_nat i ≠ Some 1) ∧
  (∀ k : nat, bitmap s' !! k =
     if decide (start <= Z.of_nat k < start + n) then Some 1
     else bitmap s !! k).
Proof.
  intros Hlen. unfold allocate. case_decide as Hr; [discriminate|].
  rewrite range_len_n.
  destruct (decide (n <= 0)) as [Hn|Hn].
  - replace (Z.to_nat n) with 0%nat by lia. simpl.
    destruct (update_groups _) as [s1|] eqn:Hu; simpl; [|discriminate].
    intros [= <- <-]. apply update_groups_fields in Hu.
    destruct Hu as (-> & -> & _). simpl.
    split; [reflexivity|]. split; [reflexivity|]. split; [lia|]. split; [lia|].
    split; [intros i Hi; lia|]. intros k. case_decide; [lia | reflexivity].
  - destruct (check_free_ok (bitmap s) (Z.to_nat n) start) as (b & Hc & Hb);
      [lia | lia |].
    rewrite Hc. simpl. destruct b; [|discriminate].
    destruct (mark_ok 1 (Z.to_nat n) start (bitmap s)) as (bm & Hm & _ & Hk);
      [lia | lia |].
    rewrite Hm. simpl.
    destruct (update_groups _) as [s1|] eqn:Hu; simpl; [|discriminate].
    intros [= <- <-]. apply update_groups_fields in Hu.
    destruct Hu as (-> & -> & _). simpl.
    split; [reflexivity|]. split; [reflexivity|]. split; [lia|]. split; [lia|].
    split.
    + intros i Hi. apply (proj1 Hb eq_refl). lia.
    + intros k. rewrite Hk. repeat case_decide; try reflexivity; lia.
Qed.

(** Witness for X5: allocating [10:15) on a fresh device. *)
Lemma allocate_marks_exactly_the_range_witness :
  (Z.to_nat (disk_size fresh50) ≤ length (bitmap fresh50))%nat ∧
  allocate fresh50 10 5 = Some (hole50, (true, 10)) ∧
  bitmap hole50 !! 12%nat = Some 1 ∧ bitmap hole50 !! 15%nat = Some 0.
Proof.
  assert (H1 : (Z.to_nat (disk_size fresh50) ≤ length (bitmap fresh50))%nat)
    by (vm_compute; lia).
  split; [exact H1|]. split; [exact hole50_reached|].
  destruct (allocate_marks_exactly_the_range fresh50 hole50 10 5 10 H1 hole50_reached)
    as (_ & _ & _ & _ & _ & Hk).
  split; [rewrite (Hk 12%nat) | rewrite (Hk 15%nat)]; reflexivity.
Defined.

(** ** The state is a function of the bitmap *)

Lemma Inv_determined s1 s2 :
  Inv s1 → Inv s2 → disk_size s1 = disk_size s2 → bitmap s1 = bitmap s2 →
  s1 = s2.
Proof.
  intros HI1 HI2 Hd Hb.
  destruct (Inv_Rep s1 HI1) as (_ & _ & _ & Hw1 & Hc1).
  destruct (Inv_Rep s2 HI2) as (_ & _ & _ & Hw2 & Hc2).
  rewrite <- Hd in Hw2, Hc2. rewrite <- Hb in Hc2.
  assert (Hfl : free_list s1 = free_list s2).
  { apply ranges_inj. apply (wfl_unique _ _ 0 (disk_size s1) Hw1 Hw2).
    intros i Hi. rewrite <- (Hc1 i Hi). apply Hc2. exact Hi. }
  destruct HI1 as (_ & _ & _ & _ & _ & Hg1). destruct HI2 as (_ & _ & _ & _ & _ & Hg2).
  unfold extents in Hg1, Hg2. rewrite <- Hfl, <- Hg1 in Hg2.
  destruct s1, s2; simpl in *. congruence.
Qed.





(** ** How calls compose *)

Lemma allocate_success_pre s s1 start n r :
  Inv s → 1 <= n → allocate s start n = Some (s1, (true, r)) →
  0 <= start ∧ start + n <= disk_size s ∧
  ∀ i, start <= i < start + n → bitmap s !! Z.to_nat i = Some 0.
Proof.
  intros HI Hn Ha.
  destruct (Inv_Rep s HI) as (Hlen & Hbits & Hpos & _ & _).
  unfold allocate in Ha. case_decide; [discriminate|].
  split; [lia|]. split; [lia|].
  rewrite range_len_n in Ha.
  destruct (check_free_ok (bitmap s) (Z.to_nat n) start) as (b & Hchk & Hb);
    [lia | lia |].
  rewrite Hchk in Ha. simpl in Ha. destruct b; [|discriminate].
  intros i Hi. destruct (lookup_in_range (bitmap s) i) as [x Hx]; [lia|].
  rewrite Forall_lookup in Hbits. destruct (Hbits _ _ Hx) as [-> | ->]; [exact Hx|].
  exfalso. apply (proj1 Hb eq_refl i); [lia | exact Hx].
Qed.

(** X7: allocations of disjoint ranges commute.  In a state satisfying
    the invariants, when allocate(a, n) and allocate(b, m) with n, m >= 1
    each succeed and the two ranges do not overlap, making both calls in
    either order succeeds and ends in the same state. *)
Theorem disjoint_allocations_commute
    (s s1 s2 : HybridSpaceManager) (a n b m ra rb : Z) :
  Inv s → 1 <= n → 1 <= m →
  allocate s a n = Some (s1, (true, ra)) →
  allocate s b m = Some (s2, (true, rb)) →
  a + n <= b ∨ b + m <= a →
  ∃ s12, allocate s1 b m = Some (s12, (true, b)) ∧
         allocate s2 a n = Some (s12, (true, a)).
Proof.
  intros HI Hn Hm Ha Hb Hdis.
  destruct (allocate_success_pre s s1 a n ra HI Hn Ha) as (Ha1 & Ha2 & Hfa).
  destruct (allocate_success_pre s s2 b m rb HI Hm Hb) as (Hb1 & Hb2 & Hfb).
  destruct (allocate_ok s a n HI Hn Ha1 Ha2 Hfa) as (s1' & Ha' & HI1 & Hd1 & _ & Hk1).
  destruct (allocate_ok s b m HI Hm Hb1 Hb2 Hfb) as (s2' & Hb' & HI2 & Hd2 & _ & Hk2).
  rewrite Ha in Ha'. injection Ha' as <- _.
  rewrite Hb in Hb'. injection Hb' as <- _.
  destruct (allocate_ok s1 b m HI1 Hm Hb1) as (s12 & H12 & HI12 & Hd12 & _ & Hk12).
  { lia. }
  { intros i Hi. rewrite Hk1. case_decide; [lia|]. apply Hfb. exact Hi. }
  destruct (allocate_ok s2 a n HI2 Hn Ha1) as (s21 & H21 & HI21 & Hd21 & _ & Hk21).
  { lia. }
  { intros i Hi. rewrite Hk2. case_decide; [lia|]. apply Hfa. exact Hi. }
  exists s12. split; [exact H12|].
  replace s12 with s21; [exact H21|].
  apply Inv_determined; [exact HI21 | exact HI12 | congruence |].
  apply list_eq. intros k. rewrite Hk21, Hk12, Hk2, Hk1.
  repeat case_decide; try reflexivity; lia.
Qed.

(** Witness for X7: [0:5) and [20:25) on the device with [10:15) taken. *)
Lemma disjoint_allocations_commute_witness :
  ∃ s1 s2 s12,
    Inv hole50 ∧
    allocate hole50 0 5 = Some (s1, (true, 0)) ∧
    allocate hole50 20 5 = Some (s2, (true, 20)) ∧
    allocate s1 20 5 = Some (s12, (true, 20)) ∧
    allocate s2 0 5 = Some (s12, (true, 0)) ∧
    extents s12 = [(5, 5); (15, 5); (25, 25)].
Proof.
  destruct (allocate hole50 0 5) as [[s1 [o1 r1]]|] eqn:H1;
    [|vm_compute in H1; discriminate].
  destruct (allocate hole50 20 5) as [[s2 [o2 r2]]|] eqn:H2;
    [|vm_compute in H2; discriminate].
  assert (o1 = true ∧ r1 = 0) as [-> ->] by (vm_compute in H1; split; congruence).
  assert (o2 = true ∧ r2 = 20) as [-> ->] by (vm_compute in H2; split; congruence).
  destruct (disjoint_allocations_commute hole50 s1 s2 0 5 20 5 0 20 hole50_Inv)
    as (s12 & H12 & H21); [lia | lia | exact H1 | exact H2 | lia |].
  exists s1, s2, s12. split; [exact hole50_Inv|]. split; [reflexivity|].
  split; [reflexivity|]. split; [exact H12|]. split; [exact H21|].
  vm_compute in H1. injection H1 as <-. vm_compute in H12. injection H12 as <-.
  reflexivity.
Defined.

(** X8: the reverse round trip.  In a state satisfying the invariants,
    deallocating an in-range run of n >= 1 allocated blocks and allocating
    the same range right after both succeed and give back the state the
    manager was in: bitmap, chain and groups. *)
Theorem deallocate_allocate_round_trip (s : HybridSpaceManager) (start n : Z) :
  Inv s → 1 <= n → 0 <= start → start + n <= disk_size s →
  (∀ i, start <= i < start + n → bitmap s !! Z.to_nat i = Some 1) →
  ∃ s1, deallocate s start n = Some (s1, true) ∧
        allocate s1 start n = Some (s, (true, start)).
Proof.
  intros HI Hn Hs He Hall.
  destruct (deallocate_ok s start n HI Hn Hs He Hall)
    as (s1 & Hd & HI1 & Hd1 & _ & Hk1).
  destruct (allocate_ok s1 start n HI1 Hn Hs) as (s2 & Ha & HI2 & Hd2 & _ & Hk2).
  { lia. }
  { intros i Hi. rewrite Hk1. case_decide; [reflexivity | lia]. }
  exists s1. split; [exact Hd|].
  replace s with s2; [exact Ha|].
  apply Inv_determined; [exact HI2 | exact HI | congruence |].
  apply list_eq. intros k. rewrite Hk2, Hk1. case_decide as Hk; [|reflexivity].
  symmetry. rewrite <- (Hall (Z.of_nat k) Hk). f_equal. lia.
Qed.

(** Witness for X8: freeing and retaking [10:15). *)
Lemma deallocate_allocate_round_trip_witness :
  Inv hole50 ∧
  (∀ i, 10 <= i < 10 + 5 → bitmap hole50 !! Z.to_nat i = Some 1) ∧
  deallocate hole50 10 5 = Some (fresh50, true) ∧
  allocate fresh50 10 5 = Some (hole50, (true, 10)).
Proof.
  assert (Hall : ∀ i, 10 <= i < 10 + 5 → bitmap hole50 !! Z.to_nat i = Some 1).
  { intros i Hi.
    assert (Hcases : i = 10 ∨ i = 11 ∨ i = 12 ∨ i = 13 ∨ i = 14) by lia.
    destruct Hcases as [->|[->|[->|[->| ->]]]]; reflexivity. }
  split; [exact hole50_Inv|]. split; [exact Hall|].
  destruct (deallocate_allocate_round_trip hole50 10 5 hole50_Inv) as (s1 & Hd & Ha);
    [lia | lia | simpl; lia | exact Hall |].
  assert (s1 = fresh50) as -> by (vm_compute in Hd; injection Hd as <-; reflexivity).
  split; [exact Hd | exact Ha].
Defined.

Lemma wfl_length lo hi l :
  wfl lo hi l → l ≠ [] → lo + 2 * Z.of_nat (length l) - 1 <= hi.
Proof.
  revert lo. induction l as [|g r IH]; intros lo Hw Hne; [done|].
  simpl in Hw. destruct Hw as (H1 & H2 & H3 & H4).
  destruct r as [|g' r']; [simpl; lia|].
  specialize (IH _ H4 ltac:(discriminate)). simpl length in *. lia.
Qed.

(** X9: fragmentation is bounded.  For every bitmap of at least
    disk_size flags, the groups computed by [update_groups] number at most
    (disk_size + 1) / 2, since two successive groups are separated by at
    least one allocated block; and their lengths add up to the number of
    free blocks of the device. *)
Theorem groups_bounded (s : HybridSpaceManager) :
  (Z.to_nat (disk_size s) ≤ length (bitmap s))%nat →
  ∃ s', update_groups s = Some s' ∧
        2 * Z.of_nat (length (groups s')) <= Z.max 0 (disk_size s) + 1 ∧
        sum_len (groups s')
        = count_free (take (Z.to_nat (disk_size s)) (bitmap s)).
Proof.
  intros Hlen.
  destruct (derive_groups_ok (bitmap s) (disk_size s) Hlen)
    as (gs & Hd & Hw & _ & Hs).
  unfold update_groups. rewrite Hd. simpl.
  eexists; split; [reflexivity|]. simpl. split; [|exact Hs].
  destruct gs as [|g r]; [simpl; lia|].
  pose proof (wfl_length 0 (disk_size s) (g :: r) Hw ltac:(discriminate)). lia.
Qed.

(** Witness for X9: every other block allocated on a 5-block device gives
    the maximum of 3 groups. *)
Lemma groups_bounded_witness :
  let s := mkManager 5 [0; 1; 0; 1; 0] [] [] in
  (Z.to_nat (disk_size s) ≤ length (bitmap s))%nat ∧
  ∃ s', update_groups s = Some s' ∧ groups s' = [(0, 1); (2, 1); (4, 1)] ∧
        2 * Z.of_nat (length (groups s')) <= Z.max 0 (disk_size s) + 1.
Proof.
  intros s. assert (Hlen : (Z.to_nat (disk_size s) ≤ length (bitmap s))%nat).
  { vm_compute. lia. }
  split; [exact Hlen|].
  destruct (groups_bounded s Hlen) as (s' & Hu & Hb & _).
  exists s'. split; [exact Hu|]. split; [|exact Hb].
  vm_compute in Hu. injection Hu as <-. reflexivity.
Defined.

Lemma Inv_free_count s : Inv s → sum_len (extents s) = count_free (bitmap s).
Proof.
  intros HI. destruct (Inv_Rep s HI) as (Hlen & Hbits & Hpos & _ & _).
  destruct HI as (_ & _ & _ & H3 & _). unfold inv3 in H3.
  pose proof (count_free_allocated _ Hbits). lia.
Qed.

Lemma Inv_counts s :
  Inv s → count_free (bitmap s) + count_allocated (bitmap s) = disk_size s.
Proof.
  intros HI. destruct (Inv_Rep s HI) as (Hlen & Hbits & Hpos & _ & _).
  rewrite (count_free_allocated _ Hbits). lia.
Qed.

(** X10: the counts of the info panel follow the calls.  In a state
    satisfying the invariants, a successful allocate(start, n) with n >= 1
    lowers [bitmap.count(0)] by n and raises [bitmap.count(1)] by n; a
    deallocate(start, n) of n >= 1 in-range allocated blocks does the
    opposite. *)
Theorem counts_follow_calls (s : HybridSpaceManager) (start n : Z) :
  Inv s → 1 <= n →
  (∀ s1 r, allocate s start n = Some (s1, (true, r)) →
     count_free (bitmap s1) = count_free (bitmap s) - n ∧
     count_allocated (bitmap s1) = count_allocated (bitmap s) + n) ∧
  (0 <= start → start + n <= disk_size s →
   (∀ i, start <= i < start + n → bitmap s !! Z.to_nat i = Some 1) →
   ∃ s1, deallocate s start n = Some (s1, true) ∧
         count_free (bitmap s1) = count_free (bitmap s) + n ∧
         count_allocated (bitmap s1) = count_allocated (bitmap s) - n).
Proof.
  intros HI Hn. split.
  - intros s1 r Ha.
    destruct (allocate_success_pre s s1 start n r HI Hn Ha) as (Hs & He & Hfree).
    destruct (allocate_ok s start n HI Hn Hs He Hfree)
      as (s1' & Ha' & HI1 & Hd1 & Hf1 & _).
    rewrite Ha in Ha'. injection Ha' as <- _.
    destruct (Inv_Rep s HI) as (_ & _ & _ & Hw & Hc).
    assert (Hsum : sum_len (extents s1) = sum_len (extents s) - n).
    { unfold extents. rewrite Hf1.
      destruct (sum_len_remove_range (free_list s) start n) as [Hsum|[_ Hnone]];
        [exact Hsum|]. exfalso.
      destruct (containing_extent 0 (disk_size s) (ranges (free_list s)) start n Hw Hn)
        as (g & Hg & Hg1 & Hg2).
      { intros i Hi. apply Hc; [lia|]. split; [lia|]. apply Hfree. exact Hi. }
      apply list_elem_of_In, List.in_map_iff in Hg. destruct Hg as (e & <- & He').
      rewrite List.Forall_forall in Hnone. apply (Hnone e He'). simpl in *. lia. }
    pose proof (Inv_free_count s HI). pose proof (Inv_free_count s1 HI1).
    pose proof (Inv_counts s HI). pose proof (Inv_counts s1 HI1). lia.
  - intros Hs He Hall.
    destruct (deallocate_ok s start n HI Hn Hs He Hall)
      as (s1 & Hd & HI1 & Hd1 & Hf1 & _).
    exists s1. split; [exact Hd|].
    assert (Hsum : sum_len (extents s1) = sum_len (extents s) + n).
    { unfold extents. rewrite Hf1, insert_extent_walk.
      rewrite (sum_len_insert_walk start n (free_list s) None). lia. }
    pose proof (Inv_free_count s HI). pose proof (Inv_free_count s1 HI1).
    pose proof (Inv_counts s HI). pose proof (Inv_counts s1 HI1). lia.
Qed.

(** Witness for X10: 45 free and 5 allocated blocks, then 40 and 10. *)
Lemma counts_follow_calls_witness :
  Inv hole50 ∧ count_free (bitmap hole50) = 45 ∧
  allocate hole50 20 5 = Some (two_holes50, (true, 20)) ∧
  count_free (bitmap two_holes50) = 45 - 5 ∧
  count_allocated (bitmap two_holes50) = 5 + 5.
Proof.
  assert (Ha : allocate hole50 20 5 = Some (two_holes50, (true, 20)))
    by (vm_compute; reflexivity).
  split; [exact hole50_Inv|]. split; [reflexivity|]. split; [exact Ha|].
  destruct (proj1 (counts_follow_calls hole50 20 5 hole50_Inv ltac:(lia))
              two_holes50 20 Ha) as [Hf Hc].
  split; [exact Hf | exact Hc].
Defined.

(** ** The text of the free list *)

Lemma wfl_sum_len lo hi l : wfl lo hi l → l ≠ [] → 0 < sum_len l.
Proof.
  revert lo. induction l as [|g r IH]; intros lo Hw Hne; [done|].
  simpl in Hw. destruct Hw as (H1 & H2 & H3 & H4). unfold sum_len in *. simpl.
  destruct r as [|g' r']; [simpl; lia|].
  specialize (IH _ H4 ltac:(discriminate)). lia.
Qed.

(** X11: [get_free_list_info] answers ["Empty"] exactly when the chain has
    no extent; in a state satisfying the invariants that is exactly when
    the disk is full, every block being allocated. *)
Theorem info_empty_iff_full (s : HybridSpaceManager) :
  (get_free_list_info s = "Empty" ↔ free_list s = []) ∧
  (Inv s →
   (get_free_list_info s = "Empty" ↔ count_allocated (bitmap s) = disk_size s)).
Proof.
  assert (Hstr : get_free_list_info s = "Empty" ↔ free_list s = []).
  { unfold get_free_list_info. destruct (free_list s) as [|e r]; [done|].
    split; [|intros Hnil; discriminate Hnil]. cbn [map].
    set (rest := map extent_label r). unfold extent_label.
    destruct rest; simpl; intros Hlab; discriminate Hlab. }
  split; [exact Hstr|]. intros HI. rewrite Hstr.
  pose proof (Inv_free_count s HI) as Hf. pose proof (Inv_counts s HI) as Hc.
  destruct (Inv_Rep s HI) as (_ & _ & _ & Hw & _). unfold extents in Hf.
  split.
  - intros Hnil. rewrite Hnil in Hf. unfold sum_len in Hf. simpl in Hf. lia.
  - intros Hfull. destruct (free_list s) as [|e r] eqn:Hfl; [done|]. exfalso.
    pose proof (wfl_sum_len _ _ _ Hw ltac:(discriminate)). lia.
Qed.

(** Witness for X11: the 50-block device after allocate(0, 50). *)
Lemma info_empty_iff_full_witness :
  ∃ s, allocate fresh50 0 50 = Some (s, (true, 0)) ∧ Inv s ∧
       count_allocated (bitmap s) = disk_size s ∧
       get_free_list_info s = "Empty".
Proof.
  destruct (allocate_ok fresh50 0 50 fresh50_Inv) as (s & Ha & HI & _);
    [lia | lia | simpl; lia | |].
  { intros i Hi. apply (lookup_replicate_2 50 0). lia. }
  exists s. split; [exact Ha|]. split; [exact HI|].
  assert (Hfull : count_allocated (bitmap s) = disk_size s).
  { vm_compute in Ha. injection Ha as <-. reflexivity. }
  split; [exact Hfull|].
  exact (proj2 (proj2 (info_empty_iff_full s) HI) Hfull).
Defined.

(** ** The grid of blocks *)

Lemma draw_blocks_ok bm cnt : ∀ i,
  0 <= i → i + Z.of_nat cnt <= Z.of_nat (length bm) →
  ∃ items, draw_blocks bm i cnt = Some items ∧
    length items = (2 * cnt)%nat ∧
    ∀ k : nat, (k < cnt)%nat →
      ∃ b x1 y1 x2 y2,
        bm !! (Z.to_nat i + k)%nat = Some b ∧
        block_cell (i + Z.of_nat k) = (x1, y1, x2, y2) ∧
        items !! (2 * k)%nat = Some (Rectangle x1 y1 x2 y2 (block_color b)) ∧
        items !! (2 * k + 1)%nat
        = Some (CanvasText (x1 + block_width / 2) (y1 + block_height / 2)
                  (py_str (i + Z.of_nat k))).
Proof.
  induction cnt as [|c IH]; intros i Hi Hlen.
  - exists []. split; [reflexivity|]. split; [reflexivity|]. intros k Hk. lia.
  - destruct (lookup_in_range bm i) as [b Hb]; [lia|].
    destruct (IH (i + 1)) as (rest & Hd & Hl & Hk); [lia | lia |].
    simpl. unfold draw_block. rewrite getitem_in_range by lia. rewrite Hb.
    destruct (block_cell i) as [[[x1 y1] x2] y2] eqn:Hcell.
    simpl. rewrite Hd. simpl. eexists; split; [reflexivity|].
    split; [simpl; lia|].
    intros [|k] Hlt.
    + exists b, x1, y1, x2, y2. rewrite Nat.add_0_r, Z.add_0_r.
      split; [exact Hb|]. split; [exact Hcell|]. by split.
    + destruct (Hk k ltac:(lia)) as (b' & u1 & v1 & u2 & v2 & Hb' & Hc' & Hr' & Ht').
      exists b', u1, v1, u2, v2.
      replace (Z.to_nat i + S k)%nat with (Z.to_nat (i + 1) + k)%nat by lia.
      replace (i + Z.of_nat (S k)) with (i + 1 + Z.of_nat k) by lia.
      assert (Hskip : ∀ (n m : nat) (l : list canvas_item) a a',
                 n = S (S m) → (a :: a' :: l) !! n = l !! m)
        by (intros n m l a a' ->; reflexivity).
      split; [exact Hb'|]. split; [exact Hc'|]. split.
      * rewrite (Hskip _ (2 * k)%nat) by lia. exact Hr'.
      * rewrite (Hskip _ (2 * k + 1)%nat) by lia. exact Ht'.
Qed.

Lemma block_cell_in_canvas i :
  0 <= i < DISK_SIZE →
  let '(x1, y1, x2, y2) := block_cell i in
  0 <= x1 ∧ x1 + block_width = x2 ∧ x2 <= canvas_width ∧
  0 <= y1 ∧ y1 + block_height = y2 ∧ y2 <= canvas_height.
Proof.
  unfold DISK_SIZE, block_cell, GRID_COLS, block_width, block_height, padding,
    canvas_width, canvas_height.
  intros Hi.
  pose proof (Z.div_mod i 10 ltac:(lia)).
  pose proof (Z.mod_pos_bound i 10 ltac:(lia)).
  lia.
Qed.

(** X12: for a manager whose bitmap holds the DISK_SIZE = 50 flags,
    [draw_disk] completes and draws every block i: a 50 x 50 rectangle at
    column i mod 10 and row i div 10 of the grid, lying inside the
    550 x 300 canvas, filled lightgreen when [bitmap[i] == 0] and salmon
    otherwise, with the number i at its centre. *)
Theorem draw_disk_draws_every_block (m : HybridSpaceManager) :
  (Z.to_nat DISK_SIZE ≤ length (bitmap m))%nat →
  ∃ items, draw_disk m = Some items ∧
    ∀ i, 0 <= i < DISK_SIZE →
      ∃ b x1 y1 x2 y2,
        bitmap m !! Z.to_nat i = Some b ∧ block_cell i = (x1, y1, x2, y2) ∧
        items !! (2 * Z.to_nat i)%nat
        = Some (Rectangle x1 y1 x2 y2 (if decide (b = 0) then "lightgreen" else "salmon")) ∧
        items !! (2 * Z.to_nat i + 1)%nat
        = Some (CanvasText (x1 + 25) (y1 + 25) (py_str i)) ∧
        0 <= x1 ∧ x1 + 50 = x2 ∧ x2 <= canvas_width ∧
        0 <= y1 ∧ y1 + 50 = y2 ∧ y2 <= canvas_height.
Proof.
  intros Hlen. unfold DISK_SIZE in Hlen.
  destruct (draw_blocks_ok (bitmap m) (range_len 0 DISK_SIZE) 0)
    as (blocks & Hd & Hl & Hk); [lia | unfold range_len, DISK_SIZE; lia |].
  unfold draw_disk. rewrite Hd. simpl. eexists; split; [reflexivity|].
  intros i Hi.
  destruct (Hk (Z.to_nat i)) as (b & x1 & y1 & x2 & y2 & Hb & Hc & Hrect & Htext).
  { unfold range_len, DISK_SIZE in *. lia. }
  replace (0 + Z.of_nat (Z.to_nat i)) with i in Hc, Htext by lia.
  pose proof (block_cell_in_canvas i Hi) as Hcell. rewrite Hc in Hcell.
  exists b, x1, y1, x2, y2. simpl in Hb.
  split; [exact Hb|]. split; [exact Hc|].
  assert (Hlt : (2 * Z.to_nat i + 1 < length blocks)%nat).
  { rewrite Hl. unfold range_len, DISK_SIZE in *. lia. }
  split; [rewrite lookup_app_l by lia; exact Hrect|].
  split; [rewrite lookup_app_l by lia; exact Htext|].
  unfold block_width, block_height in Hcell. lia.
Qed.

(** Witness for X12: block 12 is salmon on the device with [10:15) taken. *)
Lemma draw_disk_draws_every_block_witness :
  (Z.to_nat DISK_SIZE ≤ length (bitmap hole50))%nat ∧
  ∃ items, draw_disk hole50 = Some items ∧
           items !! 24%nat = Some (Rectangle 114 62 164 112 "salmon") ∧
           items !! 25%nat = Some (CanvasText 139 87 "12").
Proof.
  assert (Hlen : (Z.to_nat DISK_SIZE ≤ length (bitmap hole50))%nat)
    by (vm_compute; lia).
  split; [exact Hlen|].
  destruct (draw_disk_draws_every_block hole50 Hlen) as (items & Hd & Hall).
  exists items. split; [exact Hd|].
  destruct (Hall 12 ltac:(unfold DISK_SIZE; lia))
    as (b & x1 & y1 & x2 & y2 & Hb & Hc & Hr & Ht & _).
  vm_compute in Hb. injection Hb as <-. vm_compute in Hc.
  injection Hc as <- <- <- <-. split; [exact Hr | exact Ht].
Defined.

(** X13: the cells of two different blocks never touch: they are at least
    the padding of 2 pixels apart, horizontally or vertically. *)
Theorem block_cells_apart (i j : Z) :
  i ≠ j →
  let '(x1, y1, x2, y2) := block_cell i in
  let '(u1, v1, u2, v2) := block_cell j in
  x2 + padding <= u1 ∨ u2 + padding <= x1 ∨
  y2 + padding <= v1 ∨ v2 + padding <= y1.
Proof.
  unfold block_cell, GRID_COLS, block_width, block_height, padding.
  intros Hne.
  pose proof (Z.div_mod i 10 ltac:(lia)).
  pose proof (Z.mod_pos_bound i 10 ltac:(lia)).
  pose proof (Z.div_mod j 10 ltac:(lia)).
  pose proof (Z.mod_pos_bound j 10 ltac:(lia)).
  lia.
Qed.

(** Witness for X13: blocks 9 and 10, end of a row and start of the next. *)
Lemma block_cells_apart_witness :
  9 ≠ 10 ∧ block_cell 9 = (478, 10, 528, 60) ∧ block_cell 10 = (10, 62, 60, 112) ∧
  (528 + padding <= 10 ∨ 60 + padding <= 478 ∨
   60 + padding <= 62 ∨ 112 + padding <= 10).
Proof.
  assert (Hne : 9 ≠ 10) by lia.
  split; [exact Hne|]. split; [reflexivity|]. split; [reflexivity|].
  exact (block_cells_apart 9 10 Hne).
Defined.

(** ** The arrows between extents *)

Lemma wfl_app_inv lo hi l1 l2 :
  wfl lo hi (l1 ++ l2) → ∃ lo', lo <= lo' ∧ wfl lo' hi l2.
Proof.
  revert lo. induction l1 as [|g r IH]; intros lo Hw.
  - exists lo. split; [lia | exact Hw].
  - simpl in Hw. destruct Hw as (H1 & H2 & H3 & H4).
    destruct (IH _ H4) as (lo' & Hlo & Hw'). exists lo'. split; [lia | exact Hw'].
Qed.

Lemma draw_arrows_between p c post pre : ∀ prev,
  arrow p c ∈ draw_arrows prev (pre ++ p :: c :: post).
Proof.
  induction pre as [|x pre IH]; intros prev; simpl.
  - destruct prev; [right; left | left].
  - destruct prev; [right|]; apply IH.
Qed.

(** X14: arrows point forward.  For a manager of DISK_SIZE = 50 blocks in
    a state satisfying the invariants, [draw_disk] draws an arrow for every
    two successive extents of the chain; it leaves and arrives inside the
    canvas, and it either stays in one row, going left to right over at
    least 54 pixels, or arrives in a lower row than it leaves. *)
Theorem arrows_point_forward
    (m : HybridSpaceManager) (pre post : list FreeExtent.t) (p c : FreeExtent.t) :
  Inv m → disk_size m = DISK_SIZE →
  free_list m = pre ++ p :: c :: post →
  ∃ items, draw_disk m = Some items ∧ arrow p c ∈ items ∧
    let '(prev_x, prev_y) := arrow_from p in
    let '(curr_x, curr_y) := arrow_to c in
    0 <= prev_x <= canvas_width ∧ 0 <= prev_y <= canvas_height ∧
    0 <= curr_x <= canvas_width ∧ 0 <= curr_y <= canvas_height ∧
    ((prev_y = curr_y ∧ prev_x + 54 <= curr_x) ∨ prev_y + 52 <= curr_y).
Proof.
  intros HI Hd Hfl.
  destruct (Inv_Rep m HI) as (Hlen & _ & _ & Hw & _).
  rewrite Hd in Hlen, Hw.
  destruct (draw_blocks_ok (bitmap m) (range_len 0 DISK_SIZE) 0)
    as (blocks & Hb & _); [lia | unfold range_len, DISK_SIZE in *; lia |].
  unfold draw_disk. rewrite Hb. simpl. eexists; split; [reflexivity|].
  split.
  { apply elem_of_app. right. rewrite Hfl. apply draw_arrows_between. }
  rewrite Hfl, ranges_app in Hw. apply wfl_app_inv in Hw.
  destruct Hw as (lo & Hlo & Hw). simpl in Hw.
  destruct Hw as (P1 & P2 & P3 & C1 & C2 & C3 & _).
  unfold arrow_from, arrow_to, GRID_COLS, block_width, block_height, padding,
    canvas_width, canvas_height, DISK_SIZE in *.
  remember (FreeExtent.start p + FreeExtent.size p - 1) as l eqn:Hl.
  remember (FreeExtent.start c) as f eqn:Hf.
  pose proof (Z.div_mod l 10 ltac:(lia)).
  pose proof (Z.mod_pos_bound l 10 ltac:(lia)).
  pose proof (Z.div_mod f 10 ltac:(lia)).
  pose proof (Z.mod_pos_bound f 10 ltac:(lia)).
  change (50 `div` 2) with 25.
  assert (Hrows : l `div` 10 <= f `div` 10) by (apply Z.div_le_mono; lia).
  split; [lia|]. split; [lia|]. split; [lia|]. split; [lia|].
  destruct (decide (l `div` 10 = f `div` 10)); [left | right]; lia.
Qed.

(** Witness for X14: the arrow from [0:10) to [15:50) leaves block 9 and
    arrives at block 15, one row below. *)
Lemma arrows_point_forward_witness :
  Inv hole50 ∧ disk_size hole50 = DISK_SIZE ∧
  arrow_from (FreeExtent.mk 0 10) = (528, 35) ∧
  arrow_to (FreeExtent.mk 15 35) = (270, 87) ∧
  ∃ items, draw_disk hole50 = Some items ∧
           arrow (FreeExtent.mk 0 10) (FreeExtent.mk 15 35) ∈ items.
Proof.
  split; [exact hole50_Inv|]. split; [reflexivity|].
  split; [reflexivity|]. split; [reflexivity|].
  destruct (arrows_point_forward hole50 [] [] (FreeExtent.mk 0 10)
              (FreeExtent.mk 15 35) hole50_Inv eq_refl eq_refl)
    as (items & Hd & Hin & _).
  exists items. split; [exact Hd | exact Hin].
Defined.

(** ** The buttons keep the window in step with the manager *)

Lemma allocate_rejected_same s s' start n r :
  allocate s start n = Some (s', (false, r)) → s' = s.
Proof.
  unfold allocate. case_decide; [congruence|].
  destruct (check_free _ _ _) as [[|]|]; simpl; [|congruence|discriminate].
  destruct (mark _ _ _ _); simpl; [|discriminate].
  destruct (update_groups _); simpl; [|discriminate]. congruence.
Qed.

Lemma deallocate_rejected_same s s' start n :
  deallocate s start n = Some (s', false) → s' = s.
Proof.
  unfold deallocate. case_decide; [congruence|].
  destruct (mark _ _ _ _); simpl; [|discriminate].
  destruct (update_groups _); simpl; discriminate.
Qed.

Lemma allocate_total s start n :
  length (bitmap s) = Z.to_nat (disk_size s) →
  ∃ r, allocate s start n = Some r.
Proof.
  intros Hlen. unfold allocate. case_decide; [by eexists|].
  rewrite range_len_n.
  assert (Hcnt : start + Z.of_nat (Z.to_nat n) <= Z.of_nat (length (bitmap s))
                 ∨ Z.to_nat n = 0%nat) by lia.
  destruct Hcnt as [Hcnt|Hcnt].
  - destruct (check_free_ok (bitmap s) (Z.to_nat n) start) as (b & Hc & _);
      [lia | lia |].
    rewrite Hc. simpl. destruct b; [|by eexists].
    destruct (mark_ok 1 (Z.to_nat n) start (bitmap s)) as (bm & Hm & Hl & _);
      [lia | lia |].
    rewrite Hm. simpl.
    destruct (update_groups_total
                (mkManager (disk_size s) bm
                   (remove_range (free_list s) start n) (groups s)))
      as (g & ->); [simpl; lia|].
    simpl. by eexists.
  - rewrite Hcnt. simpl.
    destruct (update_groups_total
                (mkManager (disk_size s) (bitmap s)
                   (remove_range (free_list s) start n) (groups s)))
      as (g & ->); [simpl; lia|].
    simpl. by eexists.
Qed.

Lemma deallocate_total s start n :
  length (bitmap s) = Z.to_nat (disk_size s) →
  ∃ r, deallocate s start n = Some r.
Proof.
  intros Hlen. unfold deallocate. case_decide; [by eexists|].
  rewrite range_len_n.
  assert (Hcnt : start + Z.of_nat (Z.to_nat n) <= Z.of_nat (length (bitmap s))
                 ∨ Z.to_nat n = 0%nat) by lia.
  destruct Hcnt as [Hcnt|Hcnt].
  - destruct (mark_ok 0 (Z.to_nat n) start (bitmap s)) as (bm & Hm & Hl & _);
      [lia | lia |].
    rewrite Hm. simpl.
    destruct (update_groups_total
                (mkManager (disk_size s) bm
                   (insert_extent (free_list s) start n) (groups s)))
      as (g & ->); [simpl; lia|].
    simpl. by eexists.
  - rewrite Hcnt. simpl.
    destruct (update_groups_total
                (mkManager (disk_size s) (bitmap s)
                   (insert_extent (free_list s) start n) (groups s)))
      as (g & ->); [simpl; lia|].
    simpl. by eexists.
Qed.

Lemma do_call_disk_size s c r :
  do_call s c = Some r → disk_size (fst r) = disk_size s.
Proof.
  intros Hc.
  destruct (do_call_cases _ _ _ Hc) as [->|(v & i & cnt & bm & fl & _ & _ & Hu)];
    [reflexivity|].
  apply update_groups_fields in Hu. by destruct Hu as (-> & _ & _).
Qed.

Lemma refresh_in_step m :
  reachable m → disk_size m = DISK_SIZE →
  ∃ g, refresh m = Some g ∧ manager g = m ∧ in_step g.
Proof.
  intros Hr Hd. pose proof (reachable_length m Hr) as Hlen. rewrite Hd in Hlen.
  destruct (draw_blocks_ok (bitmap m) (range_len 0 DISK_SIZE) 0)
    as (blocks & Hb & _); [lia | unfold range_len, DISK_SIZE in *; lia |].
  assert (Hdraw : draw_disk m = Some (blocks ++ draw_arrows None (free_list m)))
    by (unfold draw_disk; rewrite Hb; reflexivity).
  unfold refresh. rewrite Hdraw. simpl.
  eexists; split; [reflexivity|]. split; [reflexivity|].
  unfold in_step. simpl. by repeat split.
Qed.

Lemma startup_in_step : ∃ g, startup = Some g ∧ in_step g.
Proof.
  destruct (init_ok DISK_SIZE) as (m & Hi & Hd & _).
  destruct (refresh_in_step m (reach_init _ _ Hi) Hd) as (g & Hg & _ & HJ).
  exists g. unfold startup. rewrite Hi. simpl. by split.
Qed.

Lemma handle_in_step py_int g e :
  in_step g → ∃ r, handle py_int g e = Some r ∧ in_step (fst r).
Proof.
  intros (Hr & Hd & Hc & Hi).
  pose proof (reachable_length _ Hr) as Hlen.
  destruct e as [st ct|st ct|]; cbn [handle].
  - unfold on_allocate.
    destruct (py_int st) as [start|]; [|eexists; split; [reflexivity|]; by repeat split].
    destruct (py_int ct) as [n|]; [|eexists; split; [reflexivity|]; by repeat split].
    destruct (allocate_total (manager g) start n Hlen) as ([m' [ok res]] & Ha).
    rewrite Ha. simpl. destruct ok.
    + assert (Hcall : do_call (manager g) (Allocate start n) = Some (m', true))
        by (simpl; rewrite Ha; reflexivity).
      destruct (refresh_in_step m') as (g' & Hg' & _ & HJ).
      { exact (reach_call _ _ _ Hr Hcall). }
      { rewrite <- Hd. exact (do_call_disk_size _ _ _ Hcall). }
      rewrite Hg'. simpl. eexists; split; [reflexivity|]. exact HJ.
    + apply allocate_rejected_same in Ha. subst m'.
      eexists; split; [reflexivity|]. by repeat split.
  - unfold on_deallocate.
    destruct (py_int st) as [start|]; [|eexists; split; [reflexivity|]; by repeat split].
    destruct (py_int ct) as [n|]; [|eexists; split; [reflexivity|]; by repeat split].
    destruct (deallocate_total (manager g) start n Hlen) as ([m' ok] & Ha).
    rewrite Ha. simpl. destruct ok.
    + assert (Hcall : do_call (manager g) (Deallocate start n) = Some (m', true))
        by (simpl; exact Ha).
      destruct (refresh_in_step m') as (g' & Hg' & _ & HJ).
      { exact (reach_call _ _ _ Hr Hcall). }
      { rewrite <- Hd. exact (do_call_disk_size _ _ _ Hcall). }
      rewrite Hg'. simpl. eexists; split; [reflexivity|]. exact HJ.
    + apply deallocate_rejected_same in Ha. subst m'.
      eexists; split; [reflexivity|]. by repeat split.
  - destruct startup_in_step as (g' & Hs & HJ). exists (g', None).
    split; [|exact HJ]. unfold on_reset. unfold startup in Hs. by rewrite Hs.
Qed.

(** X15: the window never falls out of step.  Whatever [int] does with the
    texts typed and whatever buttons are clicked in whatever order, no
    handler ends in an uncaught exception, and after every click the
    canvas is the drawing of the manager the window holds and the info
    panel is its report; that manager still has DISK_SIZE blocks.
    (Integer-to-text conversion is total here, see [py_str].) *)
Theorem window_stays_in_step (py_int : string → option Z) (es : list gui_event) :
  ∃ g0 g, startup = Some g0 ∧ gui_run py_int g0 es = Some g ∧
          disk_size (manager g) = DISK_SIZE ∧
          draw_disk (manager g) = Some (canvas g) ∧
          update_info (manager g) = info_text g.
Proof.
  destruct startup_in_step as (g0 & Hs & HJ). exists g0.
  cut (∃ g, gui_run py_int g0 es = Some g ∧ in_step g).
  { intros (g & Hrun & _ & Hd & Hc & Hi). exists g. by repeat split. }
  clear Hs. revert g0 HJ. induction es as [|e es IH]; intros g0 HJ.
  - exists g0. by split.
  - destruct (handle_in_step py_int g0 e HJ) as (r & Hh & HJ').
    destruct (IH _ HJ') as (g & Hrun & HJg).
    exists g. simpl. rewrite Hh. simpl. by split.
Qed.

(** X16: a click that ends with an error dialog changes nothing: the
    manager, the canvas and the info panel are the ones before the click.
    A click on Allocate that ends with the success dialog has parsed both
    texts, made the call, which succeeded, and redrawn the canvas and the
    report from the new manager. *)
Theorem error_dialog_changes_nothing
    (py_int : string → option Z) (g g' : gui) (st ct title msg : string) :
  (on_allocate py_int g st ct = Some (g', showerror title msg) → g' = g) ∧
  (on_deallocate py_int g st ct = Some (g', showerror title msg) → g' = g) ∧
  (on_allocate py_int g st ct = Some (g', showinfo title msg) →
   ∃ start n, py_int st = Some start ∧ py_int ct = Some n ∧
     allocate (manager g) start n = Some (manager g', (true, start)) ∧
     draw_disk (manager g') = Some (canvas g') ∧
     info_text g' = update_info (manager g')).
Proof.
  split; [|split].
  - unfold on_allocate. destruct (py_int st) as [start|]; [|congruence].
    destruct (py_int ct) as [n|]; [|congruence].
    destruct (allocate _ _ _) as [[m' [ok res]]|] eqn:Ha; simpl; [|discriminate].
    destruct ok.
    + destruct (refresh m'); simpl; discriminate.
    + apply allocate_rejected_same in Ha. subst m'. destruct g. simpl. congruence.
  - unfold on_deallocate. destruct (py_int st) as [start|]; [|congruence].
    destruct (py_int ct) as [n|]; [|congruence].
    destruct (deallocate _ _ _) as [[m' ok]|] eqn:Ha; simpl; [|discriminate].
    destruct ok.
    + destruct (refresh m'); simpl; discriminate.
    + apply deallocate_rejected_same in Ha. subst m'. destruct g. simpl. congruence.
  - unfold on_allocate. destruct (py_int st) as [start|]; [|discriminate].
    destruct (py_int ct) as [n|]; [|discriminate].
    destruct (allocate _ _ _) as [[m' [ok res]]|] eqn:Ha; simpl; [|discriminate].
    destruct ok; [|discriminate].
    unfold refresh. destruct (draw_disk m') as [c|] eqn:Hc; simpl; [|discriminate].
    intros [= <- _ _]. simpl. exists start, n.
    split; [reflexivity|]. split; [reflexivity|].
    assert (res = start) as ->.
    { unfold allocate in Ha. case_decide; [discriminate|].
      destruct (check_free _ _ _) as [[|]|]; simpl in Ha; [|discriminate|discriminate].
      destruct (mark _ _ _ _); simpl in Ha; [|discriminate].
      destruct (update_groups _); simpl in Ha; [|discriminate]. congruence. }
    split; [exact Ha|]. by split.
Qed.

(** Witness for X16: an out-of-range request typed into the fresh window,
    with an [int] that reads "48" and "5". *)
Lemma error_dialog_changes_nothing_witness :
  let py_int := λ t : string,
    if decide (t = "48") then Some 48 else if decide (t = "5") then Some 5 else None in
  ∃ g0, startup = Some g0 ∧
    on_allocate py_int g0 "48" "5"
    = Some (g0, showerror "Error" "Cannot allocate 5 blocks at position 48").
Proof.
  intros py_int. destruct startup as [g0|] eqn:Hs; [|vm_compute in Hs; discriminate].
  exists g0. split; [reflexivity|].
  destruct (on_allocate py_int g0 "48" "5") as [[g' mb]|] eqn:Ho;
    [|vm_compute in Hs; injection Hs as <-; vm_compute in Ho; discriminate].
  assert (Hmb : mb = showerror "Error" "Cannot allocate 5 blocks at position 48").
  { vm_compute in Hs. injection Hs as <-. vm_compute in Ho. congruence. }
  subst mb.
  rewrite (proj1 (error_dialog_changes_nothing py_int g0 g' "48" "5" "Error"
                    "Cannot allocate 5 blocks at position 48") Ho).
  reflexivity.
Defined.
